(** * UNO match server: a shallow embedding of [main.py] and its properties

    The server keeps every match in a global dictionary [games], keyed by a
    four-letter code.  A match is a dictionary with a roster ([players]), a
    [started] flag and, once started, a [gameState] dictionary.  The
    [gameState] holds a reference to the very same roster list, so the roster
    is stored once in the embedding and every handler reads and writes it
    there.

    Python lists are modelled by Rocq lists in the same order: index [0] is
    the head, [append] adds at the end and [pop()] removes the last element.
    Handlers that raise leave behind whatever they had already written; the
    outcome of a handler therefore always carries the match as it stands when
    the handler stops.

    What [random] picks is an argument of the handler that asks for it: the
    rearrangement of [random.shuffle], the code of [generate_game_code].  The
    sockets and [player_connections] are left out; of [broadcast] the
    embedding keeps the message it is called with. *)

From stdpp Require Import gmap strings list pretty.

Open Scope string_scope.
Open Scope list_scope.
Open Scope Z_scope.

(** ** Data model *)

(** A card dictionary [{"color": .., "value": .., "id": ..}]. *)
Record Card := mkCard {
  color : string;
  value : string;
  card_id : string
}.

(** A roster entry, as built by [handle_create_game] and [handle_join_game]. *)
Record Player := mkPlayer {
  player_id : string;
  name : string;
  isHost : bool;
  hand : list Card;
  calledUno : bool
}.

(** The [gameState] dictionary without its ["players"] entry, which aliases
    the roster of the enclosing match. *)
Record GameState := mkGameState {
  deck : list Card;
  discardPile : list Card;
  currentColor : option string;
  currentValue : string;
  currentPlayerIndex : Z;
  direction : Z;
  hasDrawn : bool;
  winner : option string
}.

(** An entry of [games]. *)
Record Game := mkGame {
  players : list Player;
  started : bool;
  gameState : option GameState
}.

Global Instance Card_eq_dec : EqDecision Card.
Proof. solve_decision. Defined.

Global Instance Player_eq_dec : EqDecision Player.
Proof. solve_decision. Defined.

Global Instance GameState_eq_dec : EqDecision GameState.
Proof. solve_decision. Defined.

Global Instance Game_eq_dec : EqDecision Game.
Proof. solve_decision. Defined.

(** The exceptions the handlers can raise. *)
Inductive exn :=
  IndexError | TypeError | KeyError | ValueError | ZeroDivisionError.

(** The messages handed to [broadcast] (or sent back on the socket).  The
    [gameState] payload of [game_started] and [game_update] is the state of
    the match at the time of the call and is not repeated here. *)
Inductive message :=
| game_created (code : string)
| game_joined (code : string)
| error (text : string)
| lobby_update
| game_started
| game_update
| game_over (w : string).

Global Instance message_eq_dec : EqDecision message.
Proof. solve_decision. Defined.

(** How a handler ends: it returns, having sent [sent]; it raises; or it
    never returns.  In each case [g] is the store (one match, or the whole
    registry) as the handler left it. *)
Inductive outcome (S : Type) :=
| Done (g : S) (sent : list message)
| Raised (e : exn) (g : S)
| Diverges (g : S).
Arguments Done {S} g sent.
Arguments Raised {S} e g.
Arguments Diverges {S} g.

Definition state_of {S : Type} (o : outcome S) : S :=
  match o with
  | Done g _ => g
  | Raised _ g => g
  | Diverges g => g
  end.

Definition sent_of {S : Type} (o : outcome S) : list message :=
  match o with
  | Done _ sent => sent
  | _ => []
  end.

(** ** Python list primitives *)

Section PyList.
Context {A : Type}.

(** [l.pop()]: the last element and the list without it; [None] stands for
    [IndexError: pop from empty list]. *)
Definition pop (l : list A) : option (A * list A) :=
  match last l with
  | None => None
  | Some x => Some (x, take (length l - 1)%nat l)
  end.

(** [l[i]] for an integer [i]: negative indices count from the end, and
    [None] stands for [IndexError].  The position is returned with the
    element, since the handlers go on to mutate the element in place. *)
Definition py_getitem (l : list A) (i : Z) : option (nat * A) :=
  let n := Z.of_nat (length l) in
  let k := if decide (i < 0) then i + n else i in
  if decide (0 <= k < n)
  then (fun x => (Z.to_nat k, x)) <$> l !! Z.to_nat k
  else None.

(** [l.remove(x)]: drops the first element equal to [x]; [None] stands for
    [ValueError]. *)
Fixpoint py_remove `{EqDecision A} (x : A) (l : list A) : option (list A) :=
  match l with
  | [] => None
  | y :: l' => if decide (y = x) then Some l' else (y ::.) <$> py_remove x l'
  end.

(** [l.insert(0, x)] *)
Definition insert_front (x : A) (l : list A) : list A := x :: l.
End PyList.

(** ** Module constants and helpers *)

Definition COLORS : list string := ["red"; "blue"; "green"; "yellow"].
Definition VALUES : list string :=
  ["0"; "1"; "2"; "3"; "4"; "5"; "6"; "7"; "8"; "9"; "skip"; "reverse"; "draw2"].

(** The deck of [create_deck] before [random.shuffle] is applied to it. *)
Definition unshuffled_deck : list Card :=
  (c ← COLORS; v ← VALUES;
     mkCard c v (c +:+ "-" +:+ v +:+ "-1")
     :: (if decide (v ≠ "0") then [mkCard c v (c +:+ "-" +:+ v +:+ "-2")] else []))
  ++ (i ← seq 0 4;
      [mkCard "wild" "wild" ("wild-" +:+ pretty i);
       mkCard "wild" "wild4" ("wild4-" +:+ pretty i)]).

(** [random.shuffle] is an arbitrary rearrangement: the handlers take the
    rearrangement as an argument, and a [shuffle] is any function that
    permutes its argument. *)
Definition is_shuffle (sh : list Card → list Card) : Prop :=
  ∀ l, sh l ≡ₚ l.

Definition create_deck (sh : list Card → list Card) : list Card :=
  sh unshuffled_deck.

(** [get_next_player_index]; [None] stands for [ZeroDivisionError] on an
    empty roster.  Python's [%] takes the sign of the divisor, as [Z.modulo]
    does. *)
Definition get_next_player_index (ps : list Player) (st : GameState) : option Z :=
  let idx := currentPlayerIndex st + direction st in
  if decide (length ps = 0%nat) then None
  else Some (idx `mod` Z.of_nat (length ps)).

(** ** In-place updates of the roster entries *)

Definition set_hand (h : list Card) (p : Player) : Player :=
  mkPlayer (player_id p) (name p) (isHost p) h (calledUno p).

Definition set_calledUno (b : bool) (p : Player) : Player :=
  mkPlayer (player_id p) (name p) (isHost p) (hand p) b.

(** [p["hand"].append(c)] *)
Definition hand_append (c : Card) (p : Player) : Player :=
  set_hand (hand p ++ [c]) p.

(** The loop body [if state["deck"]: q["hand"].append(state["deck"].pop())]
    for the roster entry at position [i]. *)
Definition draw_if_any (i : nat) (ps : list Player) (dk : list Card)
  : list Player * list Card :=
  match pop dk with
  | None => (ps, dk)
  | Some (c, dk') => (alter (hand_append c) i ps, dk')
  end.

(** The same body under [for _ in range(2)]. *)
Definition draw_two (i : nat) (ps : list Player) (dk : list Card)
  : list Player * list Card :=
  let '(ps1, dk1) := draw_if_any i ps dk in
  draw_if_any i ps1 dk1.

(** ** [handle_start_game] *)

(** [[deck.pop() for _ in range(n)]]: the cards in the order popped and the
    rest of the deck, or [None] when the deck runs out. *)
Fixpoint pop_n (n : nat) (dk : list Card) : option (list Card * list Card) :=
  match n with
  | O => Some ([], dk)
  | S n' =>
      match pop dk with
      | None => None
      | Some (c, dk1) =>
          match pop_n n' dk1 with
          | None => None
          | Some (h, dk2) => Some (c :: h, dk2)
          end
      end
  end.

(** The dealing loop over the roster.  When a hand cannot be filled the loop
    stops with [IndexError]; the entries dealt so far keep their new hands. *)
Fixpoint deal (ps : list Player) (dk : list Card)
  : list Player * option (list Card) :=
  match ps with
  | [] => ([], Some dk)
  | p :: ps' =>
      match pop_n 7 dk with
      | None => (p :: ps', None)
      | Some (h, dk') =>
          let '(ps'', r) := deal ps' dk' in
          (set_calledUno false (set_hand h p) :: ps'', r)
      end
  end.

(** The loop [while start["color"] == "wild": deck.insert(0, start);
    start = deck.pop()], run for at most [fuel] iterations. *)
Fixpoint seed_loop (fuel : nat) (dk : list Card) (start : Card)
  : option (Card * list Card) :=
  if decide (color start = "wild") then
    match fuel with
    | O => None
    | S fuel' =>
        match pop (insert_front start dk) with
        | None => None
        | Some (start', dk') => seed_loop fuel' dk' start'
        end
    end
  else Some (start, dk).

(** The host test [any(p["id"] == pid and p["isHost"] for p in players)]. *)
Definition is_host (pid : string) (ps : list Player) : bool :=
  existsb (fun p => bool_decide (player_id p = pid) && isHost p) ps.

(** The body of [handle_start_game] once [games.get(code)] has found the
    match.  The seed loop is given one iteration per card left in the deck
    and one more: [seed_loop_all_wild] shows that it can only use them up
    when every card it turns over is wild, in which case the loop of the
    source never ends. *)
Definition start_game (sh : list Card → list Card) (g : Game) (pid : string)
  : outcome Game :=
  if negb (is_host pid (players g)) then Done g []
  else
    match deal (players g) (create_deck sh) with
    | (ps, None) => Raised IndexError (mkGame ps (started g) (gameState g))
    | (ps, Some dk) =>
        let g1 := mkGame ps (started g) (gameState g) in
        match pop dk with
        | None => Raised IndexError g1
        | Some (start0, dk0) =>
            match seed_loop (S (length dk0)) dk0 start0 with
            | None => Diverges g1
            | Some (start, dk1) =>
                Done (mkGame ps true
                        (Some (mkGameState dk1 [start] (Some (color start))
                                 (value start) 0 1 false None)))
                     [game_started]
            end
        end
    end.

(** ** [handle_play_card] *)

(** [next((c for c in hand if c["id"] == cid), None)] *)
Definition find_card (cid : string) (h : list Card) : option Card :=
  snd <$> list_find (fun c => card_id c = cid) h.

(** The card effects, lines 175 to 183: [ps] and [st] are the roster and
    state after the penalty step, [card] the card played.  The left results
    are the exceptions of [get_next_player_index] and of the roster lookup. *)
Definition apply_effect (card : Card) (ps : list Player) (st : GameState)
  : exn + (list Player * GameState) :=
  if decide (value card = "reverse") then
    inr (ps, mkGameState (deck st) (discardPile st) (currentColor st)
               (currentValue st) (currentPlayerIndex st) (direction st * -1)
               (hasDrawn st) (winner st))
  else if decide (value card = "skip") then
    match get_next_player_index ps st with
    | None => inl ZeroDivisionError
    | Some nxt =>
        inr (ps, mkGameState (deck st) (discardPile st) (currentColor st)
                   (currentValue st) nxt (direction st)
                   (hasDrawn st) (winner st))
    end
  else if decide (value card = "draw2") then
    match get_next_player_index ps st with
    | None => inl ZeroDivisionError
    | Some nxt =>
        match py_getitem ps nxt with
        | None => inl IndexError
        | Some (j, _) =>
            let '(ps', dk') := draw_two j ps (deck st) in
            inr (ps', mkGameState dk' (discardPile st) (currentColor st)
                        (currentValue st) (currentPlayerIndex st)
                        (direction st) (hasDrawn st) (winner st))
        end
    end
  else inr (ps, st).

(** The turn advance, lines 185 and 186. *)
Definition advance_turn (ps : list Player) (st : GameState) : option GameState :=
  nxt ← get_next_player_index ps st;
  Some (mkGameState (deck st) (discardPile st) (currentColor st)
          (currentValue st) nxt (direction st) false (winner st)).

(** Lines 158 to 188: the play of [card], found in the hand of [player],
    the roster entry at position [i]; [h1] is the hand without the card. *)
Definition resolve_play (g : Game) (st : GameState) (i : nat) (player : Player)
    (card : Card) (h1 : list Card) (chosen : option string) : outcome Game :=
      let ps1 := alter (set_hand h1) i (players g) in
      let st1 :=
        mkGameState (deck st) (discardPile st ++ [card])
          (if decide (color card = "wild") then chosen else Some (color card))
          (value card) (currentPlayerIndex st) (direction st)
          (hasDrawn st) (winner st) in
      if decide (length h1 = 0%nat) then
        Done (mkGame ps1 (started g)
                (Some (mkGameState (deck st1) (discardPile st1)
                         (currentColor st1) (currentValue st1)
                         (currentPlayerIndex st1) (direction st1)
                         (hasDrawn st1) (Some (name player)))))
             [game_over (name player)]
      else
        let '(ps2, dk2) :=
          if bool_decide (length h1 = 1%nat) && negb (calledUno player)
          then draw_two i ps1 (deck st1)
          else (ps1, deck st1) in
        let ps3 := alter (set_calledUno false) i ps2 in
        let st3 :=
          mkGameState dk2 (discardPile st1) (currentColor st1)
            (currentValue st1) (currentPlayerIndex st1) (direction st1)
            (hasDrawn st1) (winner st1) in
        match apply_effect card ps3 st3 with
        | inl e => Raised e (mkGame ps3 (started g) (Some st3))
        | inr (ps4, st4) =>
            match advance_turn ps4 st4 with
            | None => Raised ZeroDivisionError (mkGame ps4 (started g) (Some st4))
            | Some st5 => Done (mkGame ps4 (started g) (Some st5)) [game_update]
            end
        end.

(** The body of [handle_play_card] once [games.get(code)] has found the
    match. *)
Definition play_card (g : Game) (pid cid : string) (chosen : option string)
  : outcome Game :=
  match gameState g with
  | None => Raised TypeError g
  | Some st =>
  match py_getitem (players g) (currentPlayerIndex st) with
  | None => Raised IndexError g
  | Some (i, player) =>
  if decide (player_id player ≠ pid) then Done g []
  else
  match find_card cid (hand player) with
  | None => Done g []
  | Some card =>
  match py_remove card (hand player) with
  | None => Raised ValueError g
  | Some h1 => resolve_play g st i player card h1 chosen
  end end end end.

(** ** [handle_draw] *)

Definition set_deck_discard (dk dp : list Card) (st : GameState) : GameState :=
  mkGameState dk dp (currentColor st) (currentValue st)
    (currentPlayerIndex st) (direction st) (hasDrawn st) (winner st).

(** The recycling branch [if not state["deck"]: ...], lines 202 to 206.  The
    old discard list, its top popped off, becomes the deck and is shuffled
    in place; the discard pile is rebound to a fresh one-element list.
    [None] stands for the [IndexError] of popping an empty discard pile,
    raised before anything is written. *)
Definition recycle (sh : list Card → list Card) (st : GameState)
  : option GameState :=
  if decide (deck st = []) then
    '(top, rest) ← pop (discardPile st);
    Some (set_deck_discard (sh rest) [top] st)
  else Some st.

(** The body of [handle_draw] once [games.get(code)] has found the match. *)
Definition draw_card (sh : list Card → list Card) (g : Game) (pid : string)
  : outcome Game :=
  match gameState g with
  | None => Raised TypeError g
  | Some st =>
  match py_getitem (players g) (currentPlayerIndex st) with
  | None => Raised IndexError g
  | Some (i, p) =>
  if decide (player_id p ≠ pid) then Done g []
  else
  match recycle sh st with
  | None => Raised IndexError g
  | Some st1 =>
      match pop (deck st1) with
      | None => Raised IndexError (mkGame (players g) (started g) (Some st1))
      | Some (c, dk') =>
          Done (mkGame (alter (hand_append c) i (players g)) (started g)
                  (Some (mkGameState dk' (discardPile st1) (currentColor st1)
                           (currentValue st1) (currentPlayerIndex st1)
                           (direction st1) true (winner st1))))
               [game_update]
      end
  end end end.

(** ** [handle_call_uno] *)

(** The loop body [if p["id"] == pid and len(p["hand"]) == 2:
    p["calledUno"] = True]. *)
Definition declare (pid : string) (p : Player) : Player :=
  if bool_decide (player_id p = pid) && bool_decide (length (hand p) = 2%nat)
  then set_calledUno true p
  else p.

(** The body of [handle_call_uno] once [games[code]] has found the match. *)
Definition call_uno (g : Game) (pid : string) : outcome Game :=
  match gameState g with
  | None => Raised TypeError g
  | Some st => Done (mkGame (declare pid <$> players g) (started g) (Some st))
                    [game_update]
  end.

(** ** The registry [games] and the handlers on it *)

(** Writes the match a handler body left behind back under its code. *)
Definition store (games : gmap string Game) (code : string) (o : outcome Game)
  : outcome (gmap string Game) :=
  match o with
  | Done g sent => Done (<[code := g]> games) sent
  | Raised e g => Raised e (<[code := g]> games)
  | Diverges g => Diverges (<[code := g]> games)
  end.

(** [code] is the result of [generate_game_code]; an existing match under the
    same code is overwritten. *)
Definition handle_create_game (games : gmap string Game)
    (code pid pname : string) : outcome (gmap string Game) :=
  Done (<[code := mkGame [mkPlayer pid pname true [] false] false None]> games)
       [game_created code; lobby_update].

Definition handle_join_game (games : gmap string Game)
    (code pid pname : string) : outcome (gmap string Game) :=
  match games !! code with
  | None => Done games [error "Game not found"]
  | Some game =>
      if started game then Done games [error "Game started"]
      else Done (<[code := mkGame (players game ++ [mkPlayer pid pname false [] false])
                             (started game) (gameState game)]> games)
                [game_joined code; lobby_update]
  end.

Definition handle_start_game (sh : list Card → list Card)
    (games : gmap string Game) (code pid : string)
  : outcome (gmap string Game) :=
  match games !! code with
  | None => Done games []
  | Some game => store games code (start_game sh game pid)
  end.

Definition handle_play_card (games : gmap string Game)
    (code pid cid : string) (chosen : option string)
  : outcome (gmap string Game) :=
  match games !! code with
  | None => Done games []
  | Some game => store games code (play_card game pid cid chosen)
  end.

Definition handle_draw (sh : list Card → list Card)
    (games : gmap string Game) (code pid : string)
  : outcome (gmap string Game) :=
  match games !! code with
  | None => Done games []
  | Some game => store games code (draw_card sh game pid)
  end.

Definition handle_call_uno (games : gmap string Game) (code pid : string)
  : outcome (gmap string Game) :=
  match games !! code with
  | None => Raised KeyError games
  | Some game => store games code (call_uno game pid)
  end.

(** ** Sequences of operations on one match *)

(** The three in-game messages of [handler], with the rearrangement that
    [random.shuffle] picks, should the draw need one. *)
Inductive op :=
| PlayCard (pid cid : string) (chosen : option string)
| DrawCard (sh : list Card → list Card) (pid : string)
| CallUno (pid : string).

Definition step (g : Game) (o : op) : outcome Game :=
  match o with
  | PlayCard pid cid chosen => play_card g pid cid chosen
  | DrawCard sh pid => draw_card sh g pid
  | CallUno pid => call_uno g pid
  end.

Definition op_ok (o : op) : Prop :=
  match o with
  | DrawCard sh _ => is_shuffle sh
  | _ => True
  end.

(** The match after a sequence of messages.  A handler that raises ends the
    connection it was serving, not the server: the match stays as the
    handler left it and later messages are served from there. *)
Definition run (g : Game) (ops : list op) : Game :=
  foldl (fun g o => state_of (step g o)) g ops.

(** ** Card counts *)

Definition hands (ps : list Player) : list Card := ps ≫= hand.

(** Every card of a match: the hands in roster order, then the draw pile,
    then the discard pile. *)
Definition all_cards (g : Game) : list Card :=
  hands (players g)
  ++ match gameState g with
     | None => []
     | Some st => deck st ++ discardPile st
     end.

(** [sum(|hand| for player) + |drawPile| + |discardPile|] *)
Definition total_cards (g : Game) : nat :=
  (sum_list (length ∘ hand <$> players g)
  + match gameState g with
    | None => 0
    | Some st => length (deck st) + length (discardPile st)
    end)%nat.

(** The roster entry whose turn it is. *)
Definition current_player (g : Game) : option (nat * Player) :=
  st ← gameState g; py_getitem (players g) (currentPlayerIndex st).

(** ** Vocabulary of the statements *)

(** [extend cs] appends [cs] to a hand; every draw of the handlers is one. *)
Definition extend (cs : list Card) (p : Player) : Player :=
  set_hand (hand p ++ cs) p.

(** The cards [k] pops take off a deck, in the order they are popped. *)
Definition popped (k : nat) (dk : list Card) : list Card :=
  reverse (drop (length dk - k) dk).

(** The number of cards the penalty step tries to draw. *)
Definition penalty (h1 : list Card) (p : Player) : nat :=
  if bool_decide (length h1 = 1%nat) && negb (calledUno p) then 2%nat else 0%nat.

Definition set_turn (cpi dir : Z) (st : GameState) : GameState :=
  mkGameState (deck st) (discardPile st) (currentColor st) (currentValue st)
    cpi dir (hasDrawn st) (winner st).

Definition is_wild (c : Card) : Prop := color c = "wild".

Global Instance is_wild_dec c : Decision (is_wild c).
Proof. unfold is_wild. apply _. Defined.
Global Typeclasses Opaque is_wild.

(** What holds of the turn state of every started match (see [run_turn_ok]):
    the direction is [1] or [-1], [currentPlayerIndex] is an index of the
    roster, and the discard pile is not empty. *)
Definition turn_ok (g : Game) : Prop :=
  ∃ st, gameState g = Some st
        ∧ (direction st = 1 ∨ direction st = -1)
        ∧ 0 ≤ currentPlayerIndex st < Z.of_nat (length (players g))
        ∧ discardPile st ≠ [].

(** ** Example matches *)

(** Two lobbies, as [handle_create_game] and [handle_join_game] build them. *)
Definition lobby2 : Game :=
  mkGame [mkPlayer "a" "Ann" true [] false; mkPlayer "b" "Bob" false [] false]
    false None.

Definition lobby3 : Game :=
  mkGame [mkPlayer "a" "Ann" true [] false; mkPlayer "b" "Bob" false [] false;
          mkPlayer "c" "Cy" false [] false]
    false None.

(** The matches started from them when the shuffle turns the deck over: Ann
    is dealt red 0 to red 3, Bob red 4 to red 7, Cy red 7 to red skip. *)
Definition started2 : Game := state_of (start_game reverse lobby2 "a").
Definition started3 : Game := state_of (start_game reverse lobby3 "a").

(** Ann and Bob play number cards in turn, each declaring at two cards. *)
Definition plays_to_last_card : list op :=
  [PlayCard "a" "red-0-1" None; PlayCard "b" "red-4-1" None;
   PlayCard "a" "red-1-1" None; PlayCard "b" "red-4-2" None;
   PlayCard "a" "red-1-2" None; PlayCard "b" "red-5-1" None;
   PlayCard "a" "red-2-1" None; PlayCard "b" "red-5-2" None;
   PlayCard "a" "red-2-2" None; PlayCard "b" "red-6-1" None;
   CallUno "a"; PlayCard "a" "red-3-1" None;
   CallUno "b"; PlayCard "b" "red-6-2" None].

(** Ann draws the whole draw pile, then both play number cards until Bob
    holds two cards and has not declared. *)
Definition draws_then_plays : list op :=
  repeat (DrawCard reverse "a") 93
  ++ [PlayCard "a" "red-0-1" None; PlayCard "b" "red-4-1" None;
      PlayCard "a" "red-1-1" None; PlayCard "b" "red-4-2" None;
      PlayCard "a" "red-1-2" None; PlayCard "b" "red-5-1" None;
      PlayCard "a" "red-2-1" None; PlayCard "b" "red-5-2" None;
      PlayCard "a" "red-2-2" None; PlayCard "b" "red-6-1" None;
      PlayCard "a" "red-3-1" None].

(** The example matches after these messages. *)
Definition last_cards : Game := run started2 plays_to_last_card.
Definition two_cards_each : Game := run started2 (take 10 plays_to_last_card).
Definition pile_drawn : Game := run started2 draws_then_plays.
Definition piles_exhausted : Game :=
  run started2 (repeat (DrawCard reverse "a") 93).
Definition draw2_in_hand : Game :=
  run started3 [DrawCard reverse "a"; DrawCard reverse "a"].
Definition won_match : Game :=
  state_of (play_card last_cards "a" "red-3-2" None).

(** The sizes of the hands, in roster order. *)
Definition hand_sizes (g : Game) : list nat := length ∘ hand <$> players g.

(** The state and the roster entries of a started match, for the examples. *)
Definition state_in (g : Game) : GameState :=
  default (mkGameState [] [] None EmptyString 0 1 false None) (gameState g).

Definition player_in (g : Game) (k : nat) : Player :=
  default (mkPlayer EmptyString EmptyString false [] false) (players g !! k).

(** A card of a hand by its id, and the hand without it. *)
Definition card_in (cid : string) (p : Player) : Card :=
  default (mkCard EmptyString EmptyString EmptyString) (find_card cid (hand p)).

Definition hand_without (cid : string) (p : Player) : list Card :=
  default [] (py_remove (card_in cid p) (hand p)).

(** ** The message loop and the helpers around it *)

(** What identifies a roster entry: id, name and host flag. *)
Definition roster_of (ps : list Player) : list (string * string * bool) :=
  (fun p => (player_id p, name p, isHost p)) <$> ps.

(** An inbound message, by its ["type"], with its fields and with what
    [random] picks while it is handled: the code for [create_game], the
    rearrangement for [start_game] and [draw_card].  [ReqOther] is any other
    type, or none. *)
Inductive request :=
| ReqCreate (code pid pname : string)
| ReqJoin (code pid pname : string)
| ReqStart (sh : list Card → list Card) (code pid : string)
| ReqPlay (code pid cid : string) (chosen : option string)
| ReqDraw (sh : list Card → list Card) (code pid : string)
| ReqUno (code pid : string)
| ReqOther (t : option string).

(** The code a message is addressed to, or that [create_game] fills. *)
Definition code_of (r : request) : option string :=
  match r with
  | ReqCreate code _ _ | ReqJoin code _ _ | ReqStart _ code _
  | ReqPlay code _ _ _ | ReqDraw _ code _ | ReqUno code _ => Some code
  | ReqOther _ => None
  end.

(** The dispatch of [handler], lines 230 to 236. *)
Definition handler (games : gmap string Game) (r : request)
  : outcome (gmap string Game) :=
  match r with
  | ReqCreate code pid pname => handle_create_game games code pid pname
  | ReqJoin code pid pname => handle_join_game games code pid pname
  | ReqStart sh code pid => handle_start_game sh games code pid
  | ReqPlay code pid cid chosen => handle_play_card games code pid cid chosen
  | ReqDraw sh code pid => handle_draw sh games code pid
  | ReqUno code pid => handle_call_uno games code pid
  | ReqOther _ => Done games []
  end.

(** The registry after a sequence of messages.  A handler that raises ends
    one connection and the next message is served; a handler that never
    returns holds the event loop, and no later message is served. *)
Fixpoint serve (games : gmap string Game) (rs : list request)
  : gmap string Game :=
  match rs with
  | [] => games
  | r :: rs' =>
      match handler games r with
      | Done games' _ => serve games' rs'
      | Raised _ games' => serve games' rs'
      | Diverges games' => games'
      end
  end.

(** The shape of a match that [serve] keeps: the roster is not empty and its
    first entry, and no other, is the host; [started] is set exactly when
    there is a [gameState]; and the turn state of a started match is sound. *)
Definition match_ok (g : Game) : Prop :=
  (∃ n, isHost <$> players g = true :: replicate n false)
  ∧ (started g = true ↔ is_Some (gameState g))
  ∧ (is_Some (gameState g) → turn_ok g).

(** [generate_game_code]: [pick k] is the index that the [k]-th
    [random.choice] draws in [chars]. *)
Definition chars : string := "ABCDEFGHJKLMNPQRSTUVWXYZ23456789".

Definition choice (s : string) (i : nat) : option Ascii.ascii :=
  String.get i s.

Definition generate_game_code (pick : nat → nat) : option string :=
  String.string_of_list_ascii <$> mapM (fun k => choice chars (pick k)) (seq 0 4).



(** [k] turn advances in a row. *)
Fixpoint advance_turns (k : nat) (ps : list Player) (st : GameState)
  : option GameState :=
  match k with
  | O => Some st
  | S k' => st' ← advance_turn ps st; advance_turns k' ps st'
  end.

(** Further example matches: a lobby in a registry that has served a
    [create_game] and a [join_game], rosters of fifteen and of sixteen
    players, and the three-player match after Ann has drawn a reverse card,
    and after she has played it. *)
Definition lobby_served : list request :=
  [ReqCreate "ABCD" "a" "Ann"; ReqJoin "ABCD" "b" "Bob"].

Definition guests (n : nat) : list Player :=
  (fun k => mkPlayer ("p" +:+ pretty k) ("Guest " +:+ pretty k) false [] false)
    <$> seq 1 n.

Definition lobby15 : Game :=
  mkGame (mkPlayer "a" "Ann" true [] false :: guests 14) false None.

Definition lobby16 : Game :=
  mkGame (mkPlayer "a" "Ann" true [] false :: guests 15) false None.

Definition reverse_in_hand : Game := run started3 [DrawCard reverse "a"].

Definition reversed : Game :=
  run started3 [DrawCard reverse "a"; PlayCard "a" "red-reverse-2" None].

(** Reduces the projections of records written out in full. *)
Ltac simpl_state :=
  cbn [players started gameState deck discardPile currentColor currentValue
       currentPlayerIndex direction hasDrawn winner
       player_id name isHost hand calledUno] in *.

(** * Properties *)

(** ** The list primitives *)

Section PyListFacts.
Context {A : Type}.
Implicit Types (l : list A) (x : A).

Lemma pop_nil : pop (@nil A) = None.
Proof. reflexivity. Qed.

Lemma pop_snoc l x : pop (l ++ [x]) = Some (x, l).
Proof.
  unfold pop. rewrite last_snoc, length_app. simpl.
  f_equal. f_equal. apply take_app_length'. lia.
Qed.

Lemma pop_Some l x l' : pop l = Some (x, l') → l = l' ++ [x].
Proof.
  destruct l as [|y k] using rev_ind; [discriminate|].
  rewrite pop_snoc. congruence.
Qed.

Lemma pop_None l : pop l = None → l = [].
Proof.
  destruct l as [|y k] using rev_ind; [done|].
  rewrite pop_snoc. discriminate.
Qed.

Lemma pop_cons_is_Some x l : ∃ y l', pop (x :: l) = Some (y, l').
Proof.
  destruct (pop (x :: l)) as [[y l']|] eqn:E; [eauto|].
  apply pop_None in E. discriminate.
Qed.

Lemma py_getitem_Some l z i x :
  py_getitem l z = Some (i, x) → l !! i = Some x.
Proof.
  unfold py_getitem. case_decide; [|discriminate].
  destruct (l !! Z.to_nat _) eqn:E; simpl; congruence.
Qed.

Lemma py_getitem_in_range l z :
  0 ≤ z < Z.of_nat (length l) →
  py_getitem l z = (fun x => (Z.to_nat z, x)) <$> l !! Z.to_nat z.
Proof.
  intros Hz. unfold py_getitem.
  destruct (decide (z < 0)); [lia|]. by rewrite decide_True.
Qed.

Lemma py_remove_Permutation `{EqDecision A} x l l' :
  py_remove x l = Some l' → l ≡ₚ x :: l'.
Proof.
  revert l'. induction l as [|y l IH]; intros l'; simpl; [discriminate|].
  case_decide as Hy.
  - intros [= <-]. by subst.
  - destruct (py_remove x l) as [k|]; simpl; [|discriminate].
    intros [= <-]. rewrite (IH k eq_refl). apply Permutation_swap.
Qed.

Lemma py_remove_elem_of `{EqDecision A} x l :
  x ∈ l → is_Some (py_remove x l).
Proof.
  induction 1 as [|y z l Hin IH]; simpl.
  - rewrite decide_True; eauto.
  - case_decide; [eauto|]. destruct IH as [k ->]. simpl. eauto.
Qed.
End PyListFacts.

Lemma find_card_Some cid h c :
  find_card cid h = Some c → c ∈ h ∧ card_id c = cid.
Proof.
  unfold find_card. destruct (list_find _ h) as [[i c']|] eqn:E; [|discriminate].
  intros [= <-]. apply list_find_Some in E as (Hi & Hc & _).
  split; [by eapply list_elem_of_lookup_2|done].
Qed.

Lemma find_card_None cid h :
  find_card cid h = None ↔ Forall (fun c => card_id c ≠ cid) h.
Proof.
  unfold find_card. rewrite fmap_None. apply list_find_None.
Qed.

(** ** Drawing into a hand *)

Lemma extend_nil p : extend [] p = p.
Proof. destruct p. unfold extend, set_hand. simpl. by rewrite app_nil_r. Qed.

Lemma extend_extend cs1 cs2 p : extend cs2 (extend cs1 p) = extend (cs1 ++ cs2) p.
Proof. unfold extend, set_hand. simpl. by rewrite app_assoc. Qed.

Lemma draw_if_any_spec i ps dk :
  draw_if_any i ps dk
  = (alter (extend (popped 1 dk)) i ps, take (length dk - 1) dk).
Proof.
  unfold draw_if_any, popped.
  destruct dk as [|c dk _] using rev_ind.
  - simpl. f_equal. symmetry. apply list_alter_id, extend_nil.
  - rewrite pop_snoc, length_app. simpl.
    replace (length dk + 1 - 1)%nat with (length dk) by lia.
    by rewrite drop_app_length, take_app_length.
Qed.

Lemma draw_two_spec i ps dk :
  draw_two i ps dk
  = (alter (extend (popped 2 dk)) i ps, take (length dk - 2) dk).
Proof.
  unfold draw_two. rewrite !draw_if_any_spec, list_alter_alter_eq.
  f_equal.
  - apply list_alter_ext; [|done]. intros p _. simpl.
    rewrite extend_extend. f_equal. unfold popped.
    rewrite length_take, <- reverse_app. f_equal.
    rewrite Nat.min_l by lia.
    replace (length dk - 2)%nat with (length dk - 1 - 1)%nat by lia.
    apply drop_take_drop. lia.
  - rewrite take_take, length_take. f_equal. lia.
Qed.

Lemma length_popped k dk : length (popped k dk) = (k `min` length dk)%nat.
Proof. unfold popped. rewrite length_reverse, length_drop. lia. Qed.

Lemma popped_take k dk : take (length dk - k) dk ++ reverse (popped k dk) = dk.
Proof. unfold popped. rewrite reverse_involutive. apply take_drop. Qed.

Lemma popped_Permutation k dk : popped k dk ++ take (length dk - k) dk ≡ₚ dk.
Proof.
  trans (take (length dk - k) dk ++ reverse (popped k dk));
    [|by rewrite popped_take].
  rewrite reverse_Permutation. apply Permutation_app_comm.
Qed.

(** ** The cards of a roster *)

Lemma hands_alter_extend cs i ps :
  (i < length ps)%nat → hands (alter (extend cs) i ps) ≡ₚ hands ps ++ cs.
Proof.
  unfold hands. revert i. induction ps as [|p ps IH]; intros [|i] Hi;
    simpl in Hi; try lia.
  - change (alter (extend cs) 0%nat (p :: ps)) with (extend cs p :: ps).
    rewrite !bind_cons. simpl. rewrite <- !app_assoc.
    apply Permutation_app_head, Permutation_app_comm.
  - change (alter (extend cs) (S i) (p :: ps))
      with (p :: alter (extend cs) i ps).
    rewrite !bind_cons, IH by lia. by rewrite app_assoc.
Qed.

Lemma hands_alter_same f i ps :
  (∀ p, hand (f p) = hand p) → hands (alter f i ps) = hands ps.
Proof.
  intros Hf. unfold hands. revert i.
  induction ps as [|p ps IH]; intros [|i]; [done..| |].
  - change (alter f 0%nat (p :: ps)) with (f p :: ps).
    by rewrite !bind_cons, Hf.
  - change (alter f (S i) (p :: ps)) with (p :: alter f i ps).
    by rewrite !bind_cons, IH.
Qed.

Lemma hands_alter_set_hand h i ps p :
  ps !! i = Some p → hands (alter (set_hand h) i ps) ++ hand p ≡ₚ hands ps ++ h.
Proof.
  unfold hands. revert i. induction ps as [|q ps IH]; intros [|i] Hi;
    simpl in Hi; try discriminate.
  - injection Hi as ->.
    change (alter (set_hand h) 0%nat (p :: ps)) with (set_hand h p :: ps).
    rewrite !bind_cons. simpl.
    rewrite (Permutation_app_comm (hand p ++ _) h), <- app_assoc.
    apply Permutation_app_head, Permutation_app_comm.
  - change (alter (set_hand h) (S i) (q :: ps))
      with (q :: alter (set_hand h) i ps).
    rewrite !bind_cons, <- !app_assoc. apply Permutation_app_head, IH, Hi.
Qed.

Lemma total_cards_length g : total_cards g = length (all_cards g).
Proof.
  unfold total_cards, all_cards, hands. rewrite length_app. f_equal.
  - induction (players g) as [|p ps IH]; [done|].
    rewrite bind_cons, length_app, fmap_cons. simpl. by rewrite IH.
  - destruct (gameState g); simpl; [|done]. by rewrite length_app.
Qed.

Lemma hands_after_remove c h1 i ps p :
  ps !! i = Some p → py_remove c (hand p) = Some h1 →
  hands ps ≡ₚ c :: hands (alter (set_hand h1) i ps).
Proof.
  intros Hi Hrm. apply py_remove_Permutation in Hrm.
  apply (Permutation_app_inv_r h1).
  rewrite <- (hands_alter_set_hand h1 i ps p Hi), Hrm. simpl.
  by rewrite <- Permutation_middle.
Qed.

(** ** Conservation of cards by the handlers *)

Lemma draw_two_cards i ps dk ps' dk' :
  (i < length ps)%nat → draw_two i ps dk = (ps', dk') →
  hands ps' ++ dk' ≡ₚ hands ps ++ dk.
Proof.
  intros Hi. rewrite draw_two_spec. intros [= <- <-].
  rewrite hands_alter_extend by done.
  rewrite <- app_assoc. apply Permutation_app_head, popped_Permutation.
Qed.

Lemma draw_two_length i ps dk ps' dk' :
  draw_two i ps dk = (ps', dk') → length ps' = length ps.
Proof. rewrite draw_two_spec. intros [= <- <-]. apply length_alter. Qed.

Lemma apply_effect_cards card ps st ps' st' :
  apply_effect card ps st = inr (ps', st') →
  hands ps' ++ deck st' ≡ₚ hands ps ++ deck st
  ∧ discardPile st' = discardPile st
  ∧ length ps' = length ps.
Proof.
  unfold apply_effect. repeat case_decide.
  - by intros [= <- <-].
  - destruct (get_next_player_index ps st); [|discriminate].
    by intros [= <- <-].
  - destruct (get_next_player_index ps st) as [nxt|]; [|discriminate].
    destruct (py_getitem ps nxt) as [[j q]|] eqn:Hj; [|discriminate].
    destruct (draw_two j ps (deck st)) as [ps2 dk2] eqn:Hd.
    intros [= <- <-]. simpl.
    apply py_getitem_Some, lookup_lt_Some in Hj.
    eauto using draw_two_cards, draw_two_length.
  - by intros [= <- <-].
Qed.

Lemma advance_turn_piles ps st st' :
  advance_turn ps st = Some st' →
  deck st' = deck st ∧ discardPile st' = discardPile st.
Proof.
  unfold advance_turn.
  destruct (get_next_player_index ps st); simpl; [|discriminate].
  by intros [= <-].
Qed.

Lemma play_card_cards g pid cid chosen :
  all_cards (state_of (play_card g pid cid chosen)) ≡ₚ all_cards g.
Proof.
  unfold play_card.
  destruct (gameState g) as [st|] eqn:Hst; [|done].
  destruct (py_getitem _ _) as [[i player]|] eqn:Hi; [|done].
  apply py_getitem_Some in Hi.
  case_decide; [done|].
  destruct (find_card cid _) as [card|]; [|done].
  destruct (py_remove card _) as [h1|] eqn:Hrm; [|done].
  unfold resolve_play.
  pose proof (hands_after_remove _ _ _ _ _ Hi Hrm) as Hh.
  assert (Hg : all_cards g
    ≡ₚ (hands (alter (set_hand h1) i (players g)) ++ deck st)
        ++ discardPile st ++ [card]).
  { unfold all_cards. rewrite Hst, Hh. simpl.
    rewrite <- !app_assoc, <- !Permutation_middle. by rewrite app_nil_r. }
  case_decide.
  { simpl. unfold all_cards. simpl. by rewrite Hg, <- app_assoc. }
  destruct (if _ && _ then _ else _) as [ps2 dk2] eqn:Hpen.
  assert (hands ps2 ++ dk2
          ≡ₚ hands (alter (set_hand h1) i (players g)) ++ deck st
          ∧ length ps2 = length (players g)) as [Hpen1 Hpen2].
  { destruct (_ && _).
    - split.
      + eapply draw_two_cards; [|done].
        rewrite length_alter. by eapply lookup_lt_Some.
      + apply draw_two_length in Hpen. by rewrite Hpen, length_alter.
    - injection Hpen as <- <-. by rewrite length_alter. }
  rewrite Hg, <- Hpen1.
  rewrite <- (hands_alter_same (set_calledUno false) i ps2) by done.
  destruct (apply_effect _ _ _) as [e|[ps4 st4]] eqn:Heff;
    [unfold all_cards; simpl; by rewrite app_assoc|].
  apply apply_effect_cards in Heff as (Heff1 & Heff2 & _). simpl in *.
  rewrite <- Heff1, <- Heff2.
  destruct (advance_turn _ _) as [st5|] eqn:Hadv;
    [|unfold all_cards; simpl; by rewrite app_assoc].
  apply advance_turn_piles in Hadv as [<- <-].
  unfold all_cards. simpl. by rewrite app_assoc.
Qed.

Lemma recycle_cards sh st st' :
  is_shuffle sh → recycle sh st = Some st' →
  deck st' ++ discardPile st' ≡ₚ deck st ++ discardPile st.
Proof.
  intros Hsh. unfold recycle. case_decide as Hdk; [|by intros [= <-]].
  destruct (pop (discardPile st)) as [[top rest]|] eqn:Hpop; simpl; [|discriminate].
  intros [= <-]. simpl. apply pop_Some in Hpop.
  by rewrite Hdk, Hpop, (Hsh rest).
Qed.

Lemma draw_card_cards sh g pid :
  is_shuffle sh →
  all_cards (state_of (draw_card sh g pid)) ≡ₚ all_cards g.
Proof.
  intros Hsh. unfold draw_card.
  destruct (gameState g) as [st|] eqn:Hst; [|done].
  destruct (py_getitem _ _) as [[i p]|] eqn:Hi; [|done].
  apply py_getitem_Some, lookup_lt_Some in Hi.
  case_decide; [done|].
  destruct (recycle sh st) as [st1|] eqn:Hrec; [|done].
  apply (recycle_cards _ _ _ Hsh) in Hrec.
  unfold all_cards at 2. rewrite Hst, <- Hrec.
  destruct (pop (deck st1)) as [[c dk']|] eqn:Hpop; [|done].
  apply pop_Some in Hpop. unfold all_cards. simpl.
  change (hand_append c) with (extend [c]).
  rewrite hands_alter_extend, Hpop by done.
  rewrite <- !app_assoc. apply Permutation_app_head.
  rewrite !app_assoc. apply Permutation_app_tail, Permutation_app_comm.
Qed.

Lemma hands_declare pid ps : hands (declare pid <$> ps) = hands ps.
Proof.
  unfold hands. induction ps as [|p ps IH]; [done|].
  rewrite fmap_cons, !bind_cons, IH. f_equal.
  unfold declare. by destruct (_ && _).
Qed.

Lemma call_uno_cards g pid :
  all_cards (state_of (call_uno g pid)) = all_cards g.
Proof.
  unfold call_uno. destruct (gameState g) as [st|] eqn:Hst; [|done].
  unfold all_cards. simpl. by rewrite hands_declare, Hst.
Qed.

Lemma step_cards g o :
  op_ok o → all_cards (state_of (step g o)) ≡ₚ all_cards g.
Proof.
  destruct o; simpl; intros Hok.
  - apply play_card_cards.
  - by apply draw_card_cards.
  - by rewrite call_uno_cards.
Qed.

Lemma run_cards g ops :
  Forall op_ok ops → all_cards (run g ops) ≡ₚ all_cards g.
Proof.
  intros Hok. revert g. unfold run.
  induction Hok as [|o ops Ho _ IH]; intros g; simpl; [done|].
  by rewrite IH, step_cards.
Qed.

(** ** Dealing and seeding *)

Lemma pop_n_spec n dk h dk' :
  pop_n n dk = Some (h, dk') → dk = dk' ++ reverse h ∧ length h = n.
Proof.
  revert dk h dk'. induction n as [|n IH]; intros dk h dk'; simpl.
  - intros [= <- <-]. by rewrite app_nil_r.
  - destruct (pop dk) as [[c dk1]|] eqn:Hpop; [|discriminate].
    destruct (pop_n n dk1) as [[h2 dk2]|] eqn:Hn; [|discriminate].
    intros [= <- <-]. apply pop_Some in Hpop. apply IH in Hn as [-> <-].
    by rewrite Hpop, reverse_cons, app_assoc.
Qed.

Lemma pop_n_is_Some n dk : (n ≤ length dk)%nat → is_Some (pop_n n dk).
Proof.
  revert dk. induction n as [|n IH]; intros dk Hn; simpl; [eauto|].
  destruct dk as [|c dk _] using rev_ind; [simpl in Hn; lia|].
  rewrite pop_snoc. rewrite length_app in Hn. simpl in Hn.
  destruct (IH dk) as [[h dk2] ->]; [lia|eauto].
Qed.

Lemma pop_n_None n dk : pop_n n dk = None → (length dk < n)%nat.
Proof.
  intros Hn. destruct (decide (n ≤ length dk)%nat) as [Hle|]; [|lia].
  apply pop_n_is_Some in Hle as [? ?]. congruence.
Qed.

Lemma deal_spec ps dk ps' dk' :
  deal ps dk = (ps', Some dk') →
  dk = dk' ++ reverse (hands ps')
  ∧ Forall (fun p => length (hand p) = 7%nat ∧ calledUno p = false) ps'
  ∧ player_id <$> ps' = player_id <$> ps
  ∧ name <$> ps' = name <$> ps
  ∧ isHost <$> ps' = isHost <$> ps.
Proof.
  revert dk ps'. induction ps as [|p ps IH]; intros dk ps'; cbn [deal].
  - intros [= <- <-]. by rewrite app_nil_r.
  - destruct (pop_n 7 dk) as [[h dk1]|] eqn:Hn; [|discriminate].
    destruct (deal ps dk1) as [ps2 r] eqn:Hd. intros [= <- ->].
    apply IH in Hd as (Hdk & Hall & Hid & Hnm & Hho).
    apply pop_n_spec in Hn as [-> Hlen]. unfold hands in *.
    rewrite bind_cons, !fmap_cons, Hid, Hnm, Hho. simpl.
    split_and!; [|by constructor|done..].
    by rewrite Hdk, reverse_app, app_assoc.
Qed.

Lemma deal_is_Some ps dk :
  (7 * length ps ≤ length dk)%nat → ∃ ps' dk', deal ps dk = (ps', Some dk').
Proof.
  revert dk. induction ps as [|p ps IH]; intros dk Hlen; cbn [deal length] in *;
    [eauto|].
  destruct (pop_n_is_Some 7 dk) as [[h dk1] Hn]; [lia|]. rewrite Hn.
  apply pop_n_spec in Hn as [-> Hh].
  rewrite length_app, length_reverse in Hlen.
  destruct (IH dk1) as (ps' & dk' & ->); [lia|eauto].
Qed.

Lemma deal_None ps dk ps' :
  deal ps dk = (ps', None) → (length dk < 7 * length ps)%nat.
Proof.
  intros Hd. destruct (decide (7 * length ps ≤ length dk)%nat) as [Hle|]; [|lia].
  apply deal_is_Some in Hle as (? & ? & ?). congruence.
Qed.

(** What the seed loop computes: the wild cards on top of the deck move, in
    their order, to the bottom, and the first card under them that is not
    wild is the seed. *)
Lemma seed_loop_spec fuel dk start seed dk' :
  seed_loop fuel dk start = Some (seed, dk') →
  ∃ ws rest, dk ++ [start] = rest ++ seed :: ws
             ∧ Forall is_wild ws ∧ ¬ is_wild seed ∧ dk' = ws ++ rest.
Proof.
  revert dk start. induction fuel as [|fuel IH]; intros dk start; simpl.
  - case_decide; [discriminate|]. intros [= <- <-].
    by exists [], dk.
  - case_decide as Hw; [|intros [= <- <-]; by exists [], dk].
    destruct dk as [|x dk _] using rev_ind.
    + change (pop (insert_front start [])) with (pop ([] ++ [start])).
      rewrite pop_snoc. apply IH.
    + change (pop (insert_front start (dk ++ [x])))
        with (pop ((start :: dk) ++ [x])).
      rewrite pop_snoc. intros (ws & rest & Heq & Hws & Hseed & ->)%IH.
      destruct rest as [|r rest]; simpl in Heq.
      { injection Heq as -> _. done. }
      injection Heq as <- Heq.
      exists (ws ++ [start]), rest. split_and!.
      * by rewrite Heq, <- app_assoc.
      * apply Forall_app. split; [done|]. by constructor.
      * done.
      * by rewrite <- app_assoc.
Qed.

(** The loop runs out of iterations only on wild cards: with fuel [k] it has
    looked at [start] and at the top [k] cards of the deck. *)
Lemma seed_loop_None fuel dk start :
  seed_loop fuel dk start = None →
  is_wild start ∧ Forall is_wild (drop (length dk - fuel) dk).
Proof.
  revert dk start. induction fuel as [|fuel IH]; intros dk start; simpl.
  - case_decide; [|discriminate]. intros _.
    rewrite Nat.sub_0_r, drop_all. by split.
  - case_decide as Hw; [|discriminate].
    destruct dk as [|x dk _] using rev_ind; [by split|].
    change (pop (insert_front start (dk ++ [x])))
      with (pop ((start :: dk) ++ [x])).
    rewrite pop_snoc. intros [Hx Hdk]%IH. split; [done|].
    rewrite length_app. simpl in *.
    replace (length dk + 1 - S fuel)%nat with (length dk - fuel)%nat by lia.
    rewrite drop_app_le by lia. apply Forall_app. split; [|by constructor].
    destruct (decide (fuel ≤ length dk)%nat).
    + replace (S (length dk) - fuel)%nat with (S (length dk - fuel)) in Hdk by lia.
      done.
    + replace (length dk - fuel)%nat with 0%nat by lia.
      replace (S (length dk) - fuel)%nat with 0%nat in Hdk by lia.
      simpl in *. by inversion Hdk.
Qed.

Lemma seed_loop_all_wild dk start :
  seed_loop (S (length dk)) dk start = None → Forall is_wild (start :: dk).
Proof.
  intros [Hs Hdk]%seed_loop_None.
  replace (length dk - S (length dk))%nat with 0%nat in Hdk by lia.
  by constructor.
Qed.

(** On a deck of wild cards only, no number of iterations is enough. *)
Lemma seed_loop_wild_forever fuel dk start :
  Forall is_wild (start :: dk) → seed_loop fuel dk start = None.
Proof.
  revert dk start. induction fuel as [|fuel IH]; intros dk start Hw; simpl.
  - rewrite decide_True; [done|]. by inversion Hw.
  - rewrite decide_True by (by inversion Hw).
    destruct (pop_cons_is_Some start dk) as (y & l' & Hpop).
    unfold insert_front. rewrite Hpop. apply IH.
    apply pop_Some in Hpop.
    assert (Hperm : y :: l' ≡ₚ start :: dk).
    { rewrite Hpop. by rewrite <- Permutation_cons_append. }
    by rewrite Hperm.
Qed.

(** More iterations do not change a result already found. *)
Lemma seed_loop_mono fuel fuel' dk start r :
  seed_loop fuel dk start = Some r → (fuel ≤ fuel')%nat →
  seed_loop fuel' dk start = Some r.
Proof.
  revert fuel' dk start. induction fuel as [|fuel IH];
    intros fuel' dk start; simpl.
  - case_decide; [discriminate|]. intros Hr _.
    destruct fuel'; simpl; by rewrite decide_False.
  - intros Hr Hle. destruct fuel' as [|fuel']; [lia|]. simpl.
    case_decide; [|done].
    destruct (pop _) as [[s' dk']|]; [|done]. apply IH; [done|lia].
Qed.

(** ** Starting a match *)

(** The two ways [start_game] returns: the issuer is not the host and
    nothing happens, or the hands are dealt and the seed is found. *)
Lemma start_game_Done sh g pid g' sent :
  start_game sh g pid = Done g' sent →
  (is_host pid (players g) = false ∧ g' = g ∧ sent = [])
  ∨ (is_host pid (players g) = true ∧ sent = [game_started]
     ∧ ∃ ps dk start0 dk0 seed dk1,
         deal (players g) (create_deck sh) = (ps, Some dk)
         ∧ pop dk = Some (start0, dk0)
         ∧ seed_loop (S (length dk0)) dk0 start0 = Some (seed, dk1)
         ∧ g' = mkGame ps true
                  (Some (mkGameState dk1 [seed] (Some (color seed))
                           (value seed) 0 1 false None))).
Proof.
  unfold start_game. destruct (is_host pid (players g)); cbn [negb].
  2:{ intros [= <- <-]. by left. }
  destruct (deal _ _) as [ps [dk|]] eqn:Hdeal; [|discriminate].
  destruct (pop dk) as [[start0 dk0]|] eqn:Hpop; [|discriminate].
  destruct (seed_loop _ dk0 start0) as [[seed dk1]|] eqn:Hseed; [|discriminate].
  intros [= <- <-]. right. split_and!; [done..|]. by eexists _, _, _, _, _, _.
Qed.

Lemma length_hands_dealt (ps : list Player) :
  Forall (fun p => length (hand p) = 7%nat ∧ calledUno p = false) ps →
  length (hands ps) = (7 * length ps)%nat.
Proof.
  unfold hands. induction 1 as [|p ps [Hp _] _ IH]; [done|].
  rewrite bind_cons, length_app, Hp, IH. simpl. lia.
Qed.

Lemma length_create_deck sh : is_shuffle sh → length (create_deck sh) = 108%nat.
Proof. intros Hsh. unfold create_deck. by rewrite (Hsh _). Qed.

(** A shuffled deck has eight wild cards, wherever they are. *)
Lemma wild_cards_bound sh ws rest :
  is_shuffle sh → create_deck sh ≡ₚ ws ++ rest → Forall is_wild ws →
  (length ws ≤ 8)%nat.
Proof.
  intros Hsh Hdk Hws.
  assert (length (filter is_wild (ws ++ rest)) = 8%nat) as Hn.
  { rewrite <- Hdk. unfold create_deck. by rewrite (Hsh _). }
  rewrite filter_app, length_app in Hn.
  assert (filter is_wild ws = ws) as Hf; [|rewrite Hf in Hn; lia].
  clear Hn Hdk. induction Hws as [|c ws Hc _ IH]; [done|].
  rewrite filter_cons_True by done. by rewrite IH.
Qed.

Lemma start_game_cards sh g pid g' :
  is_shuffle sh → start_game sh g pid = Done g' [game_started] →
  all_cards g' ≡ₚ unshuffled_deck.
Proof.
  intros Hsh [(_ & _ & [=])|(_ & _ & Hok)]%start_game_Done.
  destruct Hok as (ps & dk & start0 & dk0 & seed & dk1 & Hdeal & Hpop & Hseed & ->).
  apply deal_spec in Hdeal as (Hdk & _). apply pop_Some in Hpop as ->.
  apply seed_loop_spec in Hseed as (ws & rest & Heq & _ & _ & ->).
  unfold all_cards. simpl. rewrite <- (Hsh unshuffled_deck).
  fold (create_deck sh). rewrite Hdk, Heq, reverse_Permutation.
  rewrite (Permutation_app_comm _ (hands ps)). apply Permutation_app_head.
  rewrite <- !Permutation_middle, app_nil_r.
  by rewrite (Permutation_app_comm rest ws).
Qed.

(** C5. After a successful [start_game] on a roster of [N] players every hand
    has seven cards, the discard pile is one card that is not wild, the draw
    pile has [108 - 7N - 1] cards, [currentPlayerIndex] is [0] and
    [direction] is [1].  The wild cards that were on top of the dealt deck
    lie at its bottom, in their order, and the seed is the card that was
    under them.  With at most fourteen players the start always succeeds. *)
Theorem start_game_deals sh g pid :
  is_shuffle sh → is_host pid (players g) = true →
  ((length (players g) ≤ 14)%nat →
   ∃ g', start_game sh g pid = Done g' [game_started])
  ∧ ∀ g' sent, start_game sh g pid = Done g' sent →
      sent = [game_started] ∧ started g' = true
      ∧ length (players g') = length (players g)
      ∧ Forall (fun p => length (hand p) = 7%nat ∧ calledUno p = false) (players g')
      ∧ ∃ st seed ws rest,
          gameState g' = Some st
          ∧ discardPile st = [seed] ∧ color seed ≠ "wild"
          ∧ create_deck sh = (rest ++ seed :: ws) ++ reverse (hands (players g'))
          ∧ Forall is_wild ws ∧ deck st = ws ++ rest
          ∧ Z.of_nat (length (deck st))
            = 108 - 7 * Z.of_nat (length (players g)) - 1
          ∧ currentPlayerIndex st = 0 ∧ direction st = 1
          ∧ currentColor st = Some (color seed) ∧ currentValue st = value seed
          ∧ hasDrawn st = false ∧ winner st = None.
Proof.
  intros Hsh Hhost. pose proof (length_create_deck sh Hsh) as Hlen. split.
  - intros HN. unfold start_game. rewrite Hhost. cbn [negb].
    destruct (deal_is_Some (players g) (create_deck sh)) as (ps & dk & Hdeal);
      [lia|].
    rewrite Hdeal. apply deal_spec in Hdeal as (Hdk & Hall & Hid & _).
    apply length_hands_dealt in Hall.
    assert (length ps = length (players g)) as Hps.
    { by rewrite <- (length_fmap player_id ps), Hid, length_fmap. }
    assert (length dk ≥ 10)%nat as Hdklen.
    { rewrite Hdk, length_app, length_reverse in Hlen. lia. }
    destruct (pop dk) as [[start0 dk0]|] eqn:Hpop.
    2:{ apply pop_None in Hpop. subst dk. simpl in Hdklen. lia. }
    apply pop_Some in Hpop.
    destruct (seed_loop _ dk0 start0) as [[seed dk1]|] eqn:Hseed; [eauto|].
    apply seed_loop_all_wild in Hseed.
    assert (length (start0 :: dk0) ≤ 8)%nat; [|simpl in *; subst dk;
      rewrite length_app in Hdklen; simpl in *; lia].
    eapply wild_cards_bound; [done| |done].
    rewrite Hdk, Hpop. apply Permutation_app_tail.
    by rewrite <- Permutation_cons_append.
  - intros g' sent [(Hno & _)|(_ & -> & Hok)]%start_game_Done; [congruence|].
    destruct Hok as (ps & dk & start0 & dk0 & seed & dk1 & Hdeal & Hpop & Hseed & ->).
    apply deal_spec in Hdeal as (Hdk & Hall & Hid & _).
    assert (length ps = length (players g)) as Hps.
    { by rewrite <- (length_fmap player_id ps), Hid, length_fmap. }
    apply pop_Some in Hpop as ->.
    apply seed_loop_spec in Hseed as (ws & rest & Heq & Hws & Hseed & ->).
    simpl. split_and!; [done..|].
    exists (mkGameState (ws ++ rest) [seed] (Some (color seed)) (value seed)
              0 1 false None), seed, ws, rest.
    simpl. split_and!; try done.
    + by rewrite Hdk, Heq.
    + apply length_hands_dealt in Hall.
      rewrite Hdk, Heq, !length_app, length_reverse in Hlen. simpl in Hlen.
      rewrite length_app. lia.
Qed.

(** C1. Once a match has started, the cards of all hands, the draw pile and
    the discard pile together are the 108 cards of the deck, after every
    sequence of [play_card], [draw_card] and [call_uno] messages, the
    rejected ones and the ones whose handler raises included. *)
Theorem cards_conserved sh g0 pid g ops :
  is_shuffle sh → start_game sh g0 pid = Done g [game_started] →
  Forall op_ok ops →
  all_cards (run g ops) ≡ₚ unshuffled_deck
  ∧ total_cards (run g ops) = 108%nat.
Proof.
  intros Hsh Hstart Hops.
  assert (all_cards (run g ops) ≡ₚ unshuffled_deck) as Hperm.
  { rewrite run_cards by done. by eapply start_game_cards. }
  split; [done|]. by rewrite total_cards_length, Hperm.
Qed.

(** ** Accepted and rejected plays *)

Lemma py_remove_length {A} `{EqDecision A} (x : A) l l' :
  py_remove x l = Some l' → length l = S (length l').
Proof. intros Hrm%py_remove_Permutation. by rewrite Hrm. Qed.

(** A play by the current player of a card of their hand gets through to
    [resolve_play]. *)
Lemma play_card_accepted g st i p cid chosen card :
  gameState g = Some st →
  py_getitem (players g) (currentPlayerIndex st) = Some (i, p) →
  find_card cid (hand p) = Some card →
  ∃ h1, py_remove card (hand p) = Some h1
        ∧ length (hand p) = S (length h1)
        ∧ play_card g (player_id p) cid chosen
          = resolve_play g st i p card h1 chosen.
Proof.
  intros Hst Hi Hfind. unfold play_card. rewrite Hst, Hi, Hfind.
  rewrite decide_False by (by intros []).
  destruct (find_card_Some _ _ _ Hfind) as [Hin _].
  destruct (py_remove_elem_of _ _ Hin) as [h1 Hrm]. rewrite Hrm.
  exists h1. split_and!; [done| |done]. by eapply py_remove_length.
Qed.

Lemma get_next_player_index_Some ps st :
  ps ≠ [] →
  let nxt := (currentPlayerIndex st + direction st) `mod` Z.of_nat (length ps) in
  get_next_player_index ps st = Some nxt
  ∧ 0 ≤ nxt < Z.of_nat (length ps)
  ∧ ∃ q, py_getitem ps nxt = Some (Z.to_nat nxt, q).
Proof.
  intros Hps nxt. assert (length ps ≠ 0%nat) as Hlen by (by destruct ps).
  unfold get_next_player_index. rewrite decide_False by done.
  assert (0 ≤ nxt < Z.of_nat (length ps)) as Hnxt by (apply Z.mod_pos_bound; lia).
  split_and!; [done|lia..|].
  rewrite py_getitem_in_range by done.
  destruct (lookup_lt_is_Some_2 ps (Z.to_nat nxt)) as [q ->]; [lia|].
  by exists q.
Qed.

(** With two players or more, the next player is not the current one. *)
Lemma next_player_differs (ps : list Player) cpi dir i p :
  py_getitem ps cpi = Some (i, p) → (2 ≤ length ps)%nat →
  dir = 1 ∨ dir = -1 →
  Z.to_nat ((cpi + dir) `mod` Z.of_nat (length ps)) ≠ i.
Proof.
  unfold py_getitem. intros Hi Hn Hdir.
  set (n := Z.of_nat (length ps)) in *.
  assert (2 ≤ n) by lia.
  case_decide as Hk; [|discriminate].
  destruct (ps !! _); [|discriminate]. injection Hi as <- _.
  intros Heq%(f_equal Z.of_nat).
  rewrite !Z2Nat.id in Heq by (try apply Z.mod_pos_bound; lia).
  pose proof (Z.div_mod (cpi + dir) n ltac:(lia)) as Hdm.
  rewrite Heq in Hdm. generalize dependent ((cpi + dir) `div` n). intros q Hq.
  assert (q ≤ -2 ∨ q = -1 ∨ q = 0 ∨ 1 ≤ q) as Hcases by lia.
  case_decide; destruct Hdir; subst dir; nia.
Qed.

(** The card effects on a roster that is not empty. *)
Lemma apply_effect_spec card ps st :
  ps ≠ [] →
  let nxt := (currentPlayerIndex st + direction st) `mod` Z.of_nat (length ps) in
  apply_effect card ps st
  = inr (if decide (value card = "reverse")
          then (ps, set_turn (currentPlayerIndex st) (direction st * -1) st)
          else if decide (value card = "skip")
          then (ps, set_turn nxt (direction st) st)
          else if decide (value card = "draw2")
          then (alter (extend (popped 2 (deck st))) (Z.to_nat nxt) ps,
                set_deck_discard (take (length (deck st) - 2) (deck st))
                  (discardPile st) st)
          else (ps, st)).
Proof.
  intros Hps nxt. unfold apply_effect.
  destruct (get_next_player_index_Some ps st Hps) as (-> & _ & q & Hq).
  fold nxt in Hq |- *. repeat case_decide; try done.
  simpl. rewrite Hq. simpl. rewrite draw_two_spec. reflexivity.
Qed.

Lemma lookup_alter_extend cs j (ps : list Player) k :
  alter (extend cs) j ps !! k
  = (fun p => if decide (j = k) then extend cs p else p) <$> ps !! k.
Proof.
  destruct (decide (j = k)) as [->|Hne].
  - by rewrite list_lookup_alter_eq.
  - rewrite list_lookup_alter_ne by done. by destruct (ps !! k).
Qed.

Lemma popped_0 dk : popped 0 dk = [].
Proof. unfold popped. by rewrite Nat.sub_0_r, drop_all. Qed.

(** A play that leaves cards in the hand runs to its end: penalty, flag,
    card effect, turn advance, broadcast. *)
Lemma resolve_play_continues g st i p card h1 chosen :
  players g !! i = Some p → length h1 ≠ 0%nat →
  let ps3 := alter (set_calledUno false) i
               (alter (extend (popped (penalty h1 p) (deck st))) i
                  (alter (set_hand h1) i (players g))) in
  let st3 := mkGameState (take (length (deck st) - penalty h1 p) (deck st))
               (discardPile st ++ [card])
               (if decide (color card = "wild") then chosen else Some (color card))
               (value card) (currentPlayerIndex st) (direction st)
               (hasDrawn st) (winner st) in
  ∃ ps4 st4 st5,
    apply_effect card ps3 st3 = inr (ps4, st4)
    ∧ advance_turn ps4 st4 = Some st5
    ∧ length ps4 = length (players g)
    ∧ resolve_play g st i p card h1 chosen
      = Done (mkGame ps4 (started g) (Some st5)) [game_update].
Proof.
  intros Hi Hh1 ps3 st3. unfold resolve_play. rewrite decide_False by done.
  assert (length ps3 = length (players g)) as Hlen3.
  { unfold ps3. by rewrite !length_alter. }
  assert (ps3 ≠ []) as Hps3.
  { apply lookup_lt_Some in Hi. intros Hnil. rewrite Hnil in Hlen3.
    simpl in Hlen3. lia. }
  destruct (apply_effect card ps3 st3) as [e|[ps4 st4]] eqn:Heff.
  { rewrite apply_effect_spec in Heff by done. discriminate. }
  pose proof (apply_effect_cards _ _ _ _ _ Heff) as (_ & _ & Hlen4).
  assert (ps4 ≠ []) as Hps4.
  { intros Hnil. rewrite Hnil in Hlen4. destruct ps3; [done|discriminate]. }
  destruct (get_next_player_index_Some ps4 st4 Hps4) as (Hnxt & _).
  exists ps4, st4. eexists. split_and!; [done| |congruence|].
  { unfold advance_turn. rewrite Hnxt. reflexivity. }
  cbv zeta. cbn [deck discardPile currentColor currentValue currentPlayerIndex
                   direction hasDrawn winner].
  assert ((if bool_decide (length h1 = 1%nat) && negb (calledUno p)
           then draw_two i (alter (set_hand h1) i (players g)) (deck st)
           else (alter (set_hand h1) i (players g), deck st))
          = (alter (extend (popped (penalty h1 p) (deck st))) i
               (alter (set_hand h1) i (players g)),
             take (length (deck st) - penalty h1 p) (deck st))) as ->.
  { unfold penalty. destruct (_ && _).
    - apply draw_two_spec.
    - rewrite popped_0, Nat.sub_0_r, firstn_all.
      by rewrite (list_alter_id (extend [])) by apply extend_nil. }
  unfold ps3, st3 in Heff. rewrite Heff. unfold advance_turn. rewrite Hnxt.
  reflexivity.
Qed.

(** C4. A [play_card] by anyone but the player at [currentPlayerIndex], or
    for a card id that is not in that player's hand, returns without a
    broadcast and leaves the match, and the whole registry, as it was. *)
Theorem play_card_rejected g i p pid cid chosen :
  current_player g = Some (i, p) →
  player_id p ≠ pid ∨ Forall (fun c => card_id c ≠ cid) (hand p) →
  play_card g pid cid chosen = Done g []
  ∧ ∀ (games : gmap string Game) code,
      games !! code = Some g →
      handle_play_card games code pid cid chosen = Done games [].
Proof.
  intros Hcur Hrej.
  assert (play_card g pid cid chosen = Done g []) as Hplay.
  { unfold current_player in Hcur. unfold play_card.
    destruct (gameState g) as [st|]; [|discriminate]. simpl in Hcur.
    rewrite Hcur. case_decide; [done|].
    destruct Hrej as [?|Hnone%find_card_None]; [done|]. by rewrite Hnone. }
  split; [done|]. intros games code Hcode.
  unfold handle_play_card. rewrite Hcode, Hplay. simpl.
  by rewrite insert_id.
Qed.

(** ** Declaring *)

Lemma declare_spec pid p :
  player_id (declare pid p) = player_id p
  ∧ name (declare pid p) = name p
  ∧ isHost (declare pid p) = isHost p
  ∧ hand (declare pid p) = hand p
  ∧ (calledUno (declare pid p) = true
     ↔ (player_id p = pid ∧ length (hand p) = 2%nat) ∨ calledUno p = true).
Proof.
  unfold declare. do 2 case_bool_decide; simpl; intuition congruence.
Qed.

Lemma declare_id pid p :
  ¬ (player_id p = pid ∧ length (hand p) = 2%nat) → declare pid p = p.
Proof.
  intros Hno. unfold declare. do 2 case_bool_decide; simpl; intuition congruence.
Qed.

(** C8, as the code has it.  [call_uno] sets the flag of every roster entry
    with the issuer's id whose hand has exactly two cards, and changes
    nothing else; when there is no such entry the match is unchanged.  In
    both cases a [game_update] is broadcast. *)
Theorem call_uno_declares g st pid :
  gameState g = Some st →
  ∃ g', call_uno g pid = Done g' [game_update]
    ∧ started g' = started g ∧ gameState g' = Some st
    ∧ length (players g') = length (players g)
    ∧ (∀ k p, players g !! k = Some p →
         ∃ p', players g' !! k = Some p'
           ∧ player_id p' = player_id p ∧ name p' = name p
           ∧ isHost p' = isHost p ∧ hand p' = hand p
           ∧ (calledUno p' = true
              ↔ (player_id p = pid ∧ length (hand p) = 2%nat)
                ∨ calledUno p = true))
    ∧ (Forall (fun p => ¬ (player_id p = pid ∧ length (hand p) = 2%nat))
         (players g) → g' = g).
Proof.
  intros Hst. unfold call_uno. rewrite Hst. eexists. split; [done|].
  simpl. split_and!; [done..|by rewrite length_fmap| |].
  - intros k p Hk. exists (declare pid p).
    rewrite list_lookup_fmap, Hk. split; [done|]. apply declare_spec.
  - intros Hno. destruct g as [ps b gs]. simpl in *. subst gs. f_equal.
    induction Hno as [|p ps Hp _ IH]; [done|].
    by rewrite fmap_cons, IH, declare_id.
Qed.

(** What the card effect does to the roster entry at position [k]: only a
    draw2 changes an entry, the next player's, by the cards drawn. *)
Lemma apply_effect_lookup card ps st ps' st' k p :
  apply_effect card ps st = inr (ps', st') → ps !! k = Some p →
  let nxt := (currentPlayerIndex st + direction st) `mod` Z.of_nat (length ps) in
  ps' !! k
  = Some (extend (if decide (value card = "draw2" ∧ Z.to_nat nxt = k)
                  then popped 2 (deck st) else []) p).
Proof.
  intros Heff Hk nxt.
  assert (ps ≠ []) as Hps by (intros ->; discriminate).
  rewrite apply_effect_spec in Heff by done. fold nxt in Heff.
  injection Heff as Heff.
  destruct (decide (value card = "draw2")) as [Hv|Hv].
  - rewrite !decide_False in Heff by (by rewrite Hv).
    injection Heff as <- _. rewrite lookup_alter_extend, Hk. simpl.
    destruct (decide (Z.to_nat nxt = k)).
    + by rewrite decide_True.
    + rewrite decide_False by (by intros [_ ?]). by rewrite extend_nil.
  - rewrite decide_False by (by intros [? _]). rewrite extend_nil.
    by repeat case_decide; injection Heff as <- _.
Qed.

Lemma apply_effect_draw2 card ps st ps' st' :
  apply_effect card ps st = inr (ps', st') → value card = "draw2" →
  currentPlayerIndex st' = currentPlayerIndex st
  ∧ direction st' = direction st ∧ length ps' = length ps.
Proof.
  intros Heff Hv. pose proof (apply_effect_cards _ _ _ _ _ Heff) as (_ & _ & Hlen).
  split_and!; [| |done]; unfold apply_effect in Heff;
    rewrite decide_False, decide_False, decide_True in Heff by (by rewrite ?Hv);
    destruct (get_next_player_index ps st) as [nxt|]; try discriminate;
    destruct (py_getitem ps nxt) as [[j q]|]; try discriminate;
    destruct (draw_two j ps (deck st)); by injection Heff as _ <-.
Qed.

Lemma advance_turn_spec ps st st' :
  advance_turn ps st = Some st' →
  hasDrawn st' = false
  ∧ currentPlayerIndex st'
    = (currentPlayerIndex st + direction st) `mod` Z.of_nat (length ps)
  ∧ direction st' = direction st.
Proof.
  unfold advance_turn, get_next_player_index. case_decide; [discriminate|].
  simpl. by intros [= <-].
Qed.

(** C10. After a play that leaves cards in the player's hand, that player's
    [calledUno] is false and [hasDrawn] is false, whether or not the penalty
    applied. *)
Theorem play_card_clears_flags g st i p cid chosen card :
  gameState g = Some st →
  py_getitem (players g) (currentPlayerIndex st) = Some (i, p) →
  find_card cid (hand p) = Some card →
  length (hand p) ≠ 1%nat →
  ∃ g' st' p',
    play_card g (player_id p) cid chosen = Done g' [game_update]
    ∧ gameState g' = Some st' ∧ hasDrawn st' = false
    ∧ players g' !! i = Some p' ∧ calledUno p' = false
    ∧ player_id p' = player_id p.
Proof.
  intros Hst Hi Hfind Hlen.
  destruct (play_card_accepted g st i p cid chosen card Hst Hi Hfind)
    as (h1 & Hrm & Hlen1 & ->).
  apply py_getitem_Some in Hi.
  destruct (resolve_play_continues g st i p card h1 chosen Hi ltac:(lia))
    as (ps4 & st4 & st5 & Heff & Hadv & Hlen4 & ->).
  apply advance_turn_spec in Hadv as (Hdrawn & _).
  eapply (apply_effect_lookup _ _ _ _ _ i) in Heff.
  2:{ rewrite list_lookup_alter_eq, lookup_alter_extend,
        list_lookup_alter_eq, Hi. simpl. by rewrite decide_True. }
  by eexists (mkGame ps4 (started g) (Some st5)), st5, _.
Qed.

(** C6. A [draw_card] by the current player on an empty draw pile, with more
    than one card on the discard pile, recycles: the discard pile without
    its top card is shuffled into the draw pile, the discard pile is left
    with its former top card alone, the card drawn is the last of the
    shuffled pile, and the card count is what it was. *)
Theorem draw_card_recycles sh g st i p top rest :
  is_shuffle sh → gameState g = Some st →
  py_getitem (players g) (currentPlayerIndex st) = Some (i, p) →
  deck st = [] → discardPile st = rest ++ [top] → rest ≠ [] →
  ∃ c dk' g',
    recycle sh st = Some (set_deck_discard (sh rest) [top] st)
    ∧ sh rest = dk' ++ [c] ∧ dk' ++ [c] ≡ₚ rest
    ∧ draw_card sh g (player_id p) = Done g' [game_update]
    ∧ g' = mkGame (alter (hand_append c) i (players g)) (started g)
             (Some (mkGameState dk' [top] (currentColor st) (currentValue st)
                      (currentPlayerIndex st) (direction st) true (winner st)))
    ∧ total_cards g' = total_cards g.
Proof.
  intros Hsh Hst Hi Hdk Hdp Hrest.
  assert (recycle sh st = Some (set_deck_discard (sh rest) [top] st)) as Hrec.
  { unfold recycle. rewrite decide_True by done. by rewrite Hdp, pop_snoc. }
  destruct (sh rest) as [|c dk' _] eqn:Hshr using rev_ind.
  { pose proof (Hsh rest) as Hperm. rewrite Hshr in Hperm.
    by apply Permutation_nil_l in Hperm. }
  assert (draw_card sh g (player_id p)
          = Done (mkGame (alter (hand_append c) i (players g)) (started g)
             (Some (mkGameState dk' [top] (currentColor st) (currentValue st)
                      (currentPlayerIndex st) (direction st) true (winner st))))
              [game_update]) as Hdraw.
  { unfold draw_card. rewrite Hst, Hi, decide_False by (by intros []).
    rewrite Hrec. simpl. by rewrite pop_snoc. }
  exists c, dk'. eexists. split_and!; [done..| |done|done|].
  - by rewrite <- Hshr.
  - rewrite !total_cards_length.
    pose proof (draw_card_cards sh g (player_id p) Hsh) as Hcards.
    rewrite Hdraw in Hcards. by rewrite <- Hcards.
Qed.

(** C2, as the code has it.  A play of the last card of a hand sets [winner]
    to the player's name, broadcasts [game_over] and stops: no penalty, no
    card effect, no turn advance, [hasDrawn] and [started] as they were.
    Nothing closes the match: the winner is still the current player, and a
    [draw_card] of theirs draws the top card of a draw pile that is not
    empty. *)
Theorem winning_play g st i p cid chosen card :
  gameState g = Some st →
  py_getitem (players g) (currentPlayerIndex st) = Some (i, p) →
  find_card cid (hand p) = Some card →
  length (hand p) = 1%nat →
  let won :=
    mkGame (alter (set_hand []) i (players g)) (started g)
      (Some (mkGameState (deck st) (discardPile st ++ [card])
               (if decide (color card = "wild") then chosen
                else Some (color card))
               (value card) (currentPlayerIndex st) (direction st)
               (hasDrawn st) (Some (name p)))) in
  play_card g (player_id p) cid chosen = Done won [game_over (name p)]
  ∧ ∀ sh c dk, deck st = dk ++ [c] →
      draw_card sh won (player_id p)
      = Done (mkGame (alter (set_hand [c]) i (players g)) (started g)
                (Some (mkGameState dk (discardPile st ++ [card])
                         (if decide (color card = "wild") then chosen
                          else Some (color card))
                         (value card) (currentPlayerIndex st) (direction st)
                         true (Some (name p)))))
             [game_update].
Proof.
  intros Hst Hi Hfind Hlen won.
  destruct (play_card_accepted g st i p cid chosen card Hst Hi Hfind)
    as (h1 & Hrm & Hlen1 & ->).
  assert (h1 = []) as -> by (destruct h1; [done|simpl in *; lia]).
  split; [by unfold resolve_play; rewrite decide_True|].
  intros sh c dk Hdk. unfold draw_card, won.
  cbn [gameState players currentPlayerIndex].
  assert (py_getitem (alter (set_hand []) i (players g)) (currentPlayerIndex st)
          = Some (i, set_hand [] p)) as ->.
  { revert Hi. unfold py_getitem. rewrite length_alter.
    case_decide; [|discriminate].
    destruct (players g !! Z.to_nat _) as [q|] eqn:Hq; [|discriminate].
    simpl. intros [= <- ->]. by rewrite list_lookup_alter_eq, Hq. }
  cbn [currentPlayerIndex player_id set_hand].
  rewrite decide_False by (by intros []).
  unfold recycle. cbn [deck]. rewrite decide_False.
  2:{ rewrite Hdk. by destruct dk. }
  cbn [deck]. rewrite Hdk, pop_snoc. cbn. rewrite list_alter_alter_eq.
  by rewrite (list_alter_ext (hand_append c ∘ set_hand []) (set_hand [c])
               (players g) (players g) i).
Qed.

Lemma lookup_played g i p h1 cs :
  players g !! i = Some p →
  alter (set_calledUno false) i
    (alter (extend cs) i (alter (set_hand h1) i (players g))) !! i
  = Some (set_calledUno false (extend cs (set_hand h1 p))).
Proof.
  intros Hi. rewrite list_lookup_alter_eq, lookup_alter_extend,
    list_lookup_alter_eq, Hi. simpl. by rewrite decide_True.
Qed.

Lemma lookup_not_played g i j h1 cs :
  j ≠ i →
  alter (set_calledUno false) i
    (alter (extend cs) i (alter (set_hand h1) i (players g))) !! j
  = players g !! j.
Proof. intros Hne. by rewrite !list_lookup_alter_ne. Qed.

Lemma apply_effect_draw2_deck card ps st ps' st' :
  apply_effect card ps st = inr (ps', st') → value card = "draw2" →
  deck st' = take (length (deck st) - 2) (deck st)
  ∧ discardPile st' = discardPile st.
Proof.
  intros Heff Hv. unfold apply_effect in Heff.
  rewrite decide_False, decide_False, decide_True in Heff by (by rewrite ?Hv).
  destruct (get_next_player_index ps st) as [nxt|]; [|discriminate].
  destruct (py_getitem ps nxt) as [[j q]|]; [|discriminate].
  rewrite draw_two_spec in Heff. by injection Heff as _ <-.
Qed.

(** C3, as the code has it.  In a match of two players or more, a play of a
    draw2 card that leaves cards in the hand makes the next player draw the
    top two cards of the draw pile as it stands after any penalty draw, or
    as many as it has, and then passes the turn to that same player: the
    player who drew is the one to play.  The cards drawn leave the draw
    pile, which keeps the rest in order, and the card played is the new top
    of the discard pile. *)
Theorem draw2_next_player_draws g st i p cid chosen card h1 :
  gameState g = Some st →
  py_getitem (players g) (currentPlayerIndex st) = Some (i, p) →
  find_card cid (hand p) = Some card →
  py_remove card (hand p) = Some h1 → length h1 ≠ 0%nat →
  value card = "draw2" →
  (2 ≤ length (players g))%nat →
  direction st = 1 ∨ direction st = -1 →
  let nxt := (currentPlayerIndex st + direction st)
               `mod` Z.of_nat (length (players g)) in
  let pile := take (length (deck st) - penalty h1 p) (deck st) in
  ∃ g' st' q q',
    play_card g (player_id p) cid chosen = Done g' [game_update]
    ∧ gameState g' = Some st'
    ∧ Z.to_nat nxt ≠ i
    ∧ players g !! Z.to_nat nxt = Some q
    ∧ players g' !! Z.to_nat nxt = Some q'
    ∧ hand q' = hand q ++ popped 2 pile
    ∧ length (hand q') = (length (hand q) + 2 `min` length pile)%nat
    ∧ currentPlayerIndex st' = nxt
    ∧ direction st' = direction st
    ∧ deck st' = take (length pile - 2) pile
    ∧ length (deck st') = (length pile - 2)%nat
    ∧ discardPile st' = discardPile st ++ [card].
Proof.
  intros Hst Hi Hfind Hrm Hh1 Hv Hn Hdir nxt pile.
  pose proof (next_player_differs _ _ _ _ _ Hi Hn Hdir) as Hne. fold nxt in Hne.
  destruct (play_card_accepted g st i p cid chosen card Hst Hi Hfind)
    as (h & Hrm' & _ & ->).
  assert (h = h1) as -> by congruence.
  apply py_getitem_Some in Hi.
  destruct (resolve_play_continues g st i p card h1 chosen Hi Hh1)
    as (ps4 & st4 & st5 & Heff & Hadv & Hlen4 & ->).
  destruct (lookup_lt_is_Some_2 (players g) (Z.to_nat nxt)) as [q Hq].
  { assert (0 ≤ nxt < Z.of_nat (length (players g)))
      by (apply Z.mod_pos_bound; lia). lia. }
  pose proof (apply_effect_draw2 _ _ _ _ _ Heff Hv) as (Hcpi & Hd & _).
  pose proof (apply_effect_draw2_deck _ _ _ _ _ Heff Hv) as (Hdk4 & Hdp4).
  pose proof (advance_turn_piles _ _ _ Hadv) as (Hdk5 & Hdp5).
  apply advance_turn_spec in Hadv as (_ & Hcpi5 & Hd5).
  eapply (apply_effect_lookup _ _ _ _ _ (Z.to_nat nxt) q) in Heff.
  2:{ by rewrite lookup_not_played. }
  rewrite !length_alter in Heff. simpl_state. fold nxt pile in Heff, Hdk4.
  rewrite decide_True in Heff by done.
  assert (deck st5 = take (length pile - 2) pile) as Hdeck by congruence.
  exists (mkGame ps4 (started g) (Some st5)), st5, q,
    (extend (popped 2 pile) q).
  split_and!; try done.
  - simpl. by rewrite length_app, length_popped.
  - by rewrite Hcpi5, Hcpi, Hd, Hlen4.
  - congruence.
  - rewrite Hdeck, length_take. lia.
  - congruence.
Qed.

(** C7, as the code has it.  A play that leaves the player with one card,
    undeclared, makes that player draw the top two cards of the draw pile,
    or as many as it has, before the card effect and the turn advance, and
    clears the flag.  The hand ends with three cards when the draw pile had
    two or more and the play was not a draw2 that comes back to the player;
    the discard pile is not recycled to fill the penalty. *)
Theorem penalty_draw g st i p cid chosen card h1 :
  gameState g = Some st →
  py_getitem (players g) (currentPlayerIndex st) = Some (i, p) →
  find_card cid (hand p) = Some card →
  py_remove card (hand p) = Some h1 → length h1 = 1%nat →
  calledUno p = false →
  let nxt := (currentPlayerIndex st + direction st)
               `mod` Z.of_nat (length (players g)) in
  let d := length (deck st) in
  let more := if decide (value card = "draw2" ∧ Z.to_nat nxt = i)
              then popped 2 (take (d - 2) (deck st)) else [] in
  ∃ g' p',
    play_card g (player_id p) cid chosen = Done g' [game_update]
    ∧ players g' !! i = Some p'
    ∧ hand p' = (h1 ++ popped 2 (deck st)) ++ more
    ∧ length (hand p') = (1 + 2 `min` d + length more)%nat
    ∧ calledUno p' = false
    ∧ ((2 ≤ d)%nat → value card ≠ "draw2" ∨ Z.to_nat nxt ≠ i →
       length (hand p') = 3%nat).
Proof.
  intros Hst Hi Hfind Hrm Hh1 Hflag nxt d more.
  destruct (play_card_accepted g st i p cid chosen card Hst Hi Hfind)
    as (h & Hrm' & _ & ->).
  assert (h = h1) as -> by congruence.
  apply py_getitem_Some in Hi.
  destruct (resolve_play_continues g st i p card h1 chosen Hi ltac:(lia))
    as (ps4 & st4 & st5 & Heff & Hadv & Hlen4 & ->).
  assert (penalty h1 p = 2%nat) as Hpen.
  { unfold penalty. by rewrite bool_decide_eq_true_2, Hflag. }
  rewrite Hpen in Heff.
  eapply (apply_effect_lookup _ _ _ _ _ i) in Heff; [|by apply lookup_played].
  rewrite !length_alter in Heff. simpl_state. fold nxt d more in Heff.
  exists (mkGame ps4 (started g) (Some st5)),
    (extend more (set_calledUno false (extend (popped 2 (deck st))
       (set_hand h1 p)))).
  split_and!; try done.
  - simpl. rewrite !length_app, length_popped, Hh1. done.
  - intros Hd Hnot. simpl. rewrite !length_app, length_popped, Hh1.
    unfold more, d in *. rewrite decide_False by tauto.
    cbn [length]. lia.
Qed.

(** ** The registry *)

Lemma store_lookup (games : gmap string Game) code o :
  state_of (store games code o) !! code = Some (state_of o).
Proof. destruct o; simpl; apply lookup_insert_eq. Qed.

Lemma store_lookup_ne (games : gmap string Game) code code' o :
  code ≠ code' → state_of (store games code o) !! code' = games !! code'.
Proof. intros Hne. destruct o; simpl; by apply lookup_insert_ne. Qed.

(** The in-game handlers write to the match under their code and to no
    other. *)
Lemma handlers_leave_other_matches sh (games : gmap string Game)
    code code' pid cid chosen :
  code ≠ code' →
  state_of (handle_start_game sh games code pid) !! code' = games !! code'
  ∧ state_of (handle_play_card games code pid cid chosen) !! code'
    = games !! code'
  ∧ state_of (handle_draw sh games code pid) !! code' = games !! code'
  ∧ state_of (handle_call_uno games code pid) !! code' = games !! code'.
Proof.
  intros Hne.
  unfold handle_start_game, handle_play_card, handle_draw, handle_call_uno.
  destruct (games !! code); [|done].
  split_and!; by apply store_lookup_ne.
Qed.

(** ** What every started match satisfies *)

Lemma apply_effect_direction card ps st ps' st' :
  apply_effect card ps st = inr (ps', st') →
  direction st' = direction st ∨ direction st' = direction st * -1.
Proof.
  unfold apply_effect. repeat case_decide.
  - intros [= <- <-]. by right.
  - destruct (get_next_player_index ps st); [|discriminate].
    intros [= <- <-]. by left.
  - destruct (get_next_player_index ps st) as [nxt|]; [|discriminate].
    destruct (py_getitem ps nxt) as [[j q]|]; [|discriminate].
    destruct (draw_two j ps (deck st)). intros [= <- <-]. by left.
  - intros [= <- <-]. by left.
Qed.

Lemma start_game_turn_ok sh g pid g' :
  start_game sh g pid = Done g' [game_started] → turn_ok g'.
Proof.
  intros [(_ & _ & [=])|(Hhost & _ & Hok)]%start_game_Done.
  destruct Hok as (ps & dk & start0 & dk0 & seed & dk1 & Hdeal & _ & _ & ->).
  apply deal_spec in Hdeal as (_ & _ & Hid & _).
  assert (length ps = length (players g)) as Hps.
  { by rewrite <- (length_fmap player_id ps), Hid, length_fmap. }
  eexists. split; [done|]. simpl. split_and!; [by left|done| |done].
  destruct (players g); [discriminate|]. simpl in Hps. lia.
Qed.

Lemma play_card_turn_ok g pid cid chosen :
  turn_ok g → turn_ok (state_of (play_card g pid cid chosen)).
Proof.
  intros Hg. pose proof Hg as (st & Hst & Hdir & Hcpi & Hdp).
  unfold play_card. rewrite Hst.
  destruct (py_getitem _ _) as [[i p]|] eqn:Hi; [|done].
  apply py_getitem_Some in Hi.
  case_decide; [done|].
  destruct (find_card cid _) as [card|]; [|done].
  destruct (py_remove card _) as [h1|] eqn:Hrm; [|done].
  destruct (decide (length h1 = 0%nat)) as [Hh1|Hh1].
  { unfold resolve_play. rewrite decide_True by done. simpl.
    eexists. split; [done|]. simpl. rewrite length_alter.
    split_and!; try done; try lia. by destruct (discardPile st). }
  destruct (resolve_play_continues g st i p card h1 chosen Hi Hh1)
    as (ps4 & st4 & st5 & Heff & Hadv & Hlen4 & ->).
  pose proof (apply_effect_direction _ _ _ _ _ Heff) as Hdir4.
  apply apply_effect_cards in Heff as (_ & Hdp4 & _).
  pose proof (advance_turn_piles _ _ _ Hadv) as [_ Hdp5].
  apply advance_turn_spec in Hadv as (_ & Hcpi5 & Hdir5).
  simpl_state. exists st5. split; [done|]. simpl.
  rewrite Hcpi5, Hdir5, Hdp5, Hdp4, Hlen4. split_and!.
  - lia.
  - apply Z.mod_pos_bound. lia.
  - apply Z.mod_pos_bound. lia.
  - by destruct (discardPile st).
Qed.

Lemma draw_card_turn_ok sh g pid :
  turn_ok g → turn_ok (state_of (draw_card sh g pid)).
Proof.
  intros Hg. pose proof Hg as (st & Hst & Hdir & Hcpi & Hdp).
  unfold draw_card. rewrite Hst.
  destruct (py_getitem _ _) as [[i p]|]; [|done].
  case_decide; [done|].
  destruct (recycle sh st) as [st1|] eqn:Hrec; [|done].
  assert (direction st1 = direction st
          ∧ currentPlayerIndex st1 = currentPlayerIndex st
          ∧ discardPile st1 ≠ []) as (Hd1 & Hc1 & Hdp1).
  { unfold recycle in Hrec. case_decide; [|by injection Hrec as <-].
    destruct (pop (discardPile st)) as [[top rest]|]; [|discriminate].
    by injection Hrec as <-. }
  destruct (pop (deck st1)) as [[c dk']|]; simpl;
    (eexists; split; [done|]); simpl; rewrite ?length_alter, Hd1, Hc1; done.
Qed.

Lemma call_uno_turn_ok g pid :
  turn_ok g → turn_ok (state_of (call_uno g pid)).
Proof.
  intros Hg. pose proof Hg as (st & Hst & Hdir & Hcpi & Hdp).
  unfold call_uno. rewrite Hst. simpl.
  exists st. split; [done|]. simpl. by rewrite length_fmap.
Qed.

(** In every match reached from a start the direction is [1] or [-1],
    [currentPlayerIndex] is an index of the roster and the discard pile is
    not empty. *)
Lemma run_turn_ok sh g0 pid g ops :
  start_game sh g0 pid = Done g [game_started] → turn_ok (run g ops).
Proof.
  intros Hg%start_game_turn_ok. revert g Hg. unfold run.
  induction ops as [|o ops IH]; intros g Hg; simpl; [done|].
  apply IH. destruct o; simpl;
    auto using play_card_turn_ok, draw_card_turn_ok, call_uno_turn_ok.
Qed.

(** ** The example matches *)

Lemma reverse_is_shuffle : is_shuffle reverse.
Proof. intros l. apply reverse_Permutation. Qed.

Lemma repeat_draw_ok pid n : Forall op_ok (repeat (DrawCard reverse pid) n).
Proof.
  induction n; simpl; constructor; [apply reverse_is_shuffle|done].
Qed.

Example started2_hands :
  start_game reverse lobby2 "a" = Done started2 [game_started]
  ∧ hand_sizes started2 = [7; 7]%nat
  ∧ (card_id <$> hands (players started2))
    = ["red-0-1"; "red-1-1"; "red-1-2"; "red-2-1"; "red-2-2"; "red-3-1";
       "red-3-2"; "red-4-1"; "red-4-2"; "red-5-1"; "red-5-2"; "red-6-1";
       "red-6-2"; "red-7-1"].
Proof. by vm_compute. Qed.

Example lobby2_built :
  state_of (handle_join_game
              (state_of (handle_create_game ∅ "ABCD" "a" "Ann"))
              "ABCD" "b" "Bob") !! "ABCD"
  = Some lobby2.
Proof. by vm_compute. Qed.

(** Witness of C1: the example match after a draw, plays and declarations. *)
Lemma cards_conserved_witness :
  total_cards (run started2 (DrawCard reverse "a" :: plays_to_last_card))
  = 108%nat.
Proof.
  refine (proj2 (cards_conserved reverse lobby2 "a" started2
                   (DrawCard reverse "a" :: plays_to_last_card) _ _ _)).
  - exact reverse_is_shuffle.
  - vm_compute. reflexivity.
  - repeat constructor. exact reverse_is_shuffle.
Defined.

(** Witness of C5: the two-player lobby. *)
Lemma start_game_deals_witness :
  ∃ g', start_game reverse lobby2 "a" = Done g' [game_started].
Proof.
  refine (proj1 (start_game_deals reverse lobby2 "a" _ _) _).
  - exact reverse_is_shuffle.
  - reflexivity.
  - simpl. lia.
Defined.

(** Witness of C4: Bob plays out of turn in the example match. *)
Lemma play_card_rejected_witness :
  play_card started2 "b" "red-4-1" None = Done started2 [].
Proof.
  refine (proj1 (play_card_rejected started2 0
                   (mkPlayer "a" "Ann" true (take 7 (hands (players started2))) false)
                   "b" "red-4-1" None _ _)).
  - vm_compute. reflexivity.
  - left. discriminate.
Defined.

(** Witness of C6: Bob draws in the example match after Ann has emptied the
    draw pile; the discard pile holds twelve cards. *)
Lemma draw_card_recycles_witness :
  ∃ g', draw_card reverse pile_drawn "b" = Done g' [game_update]
        ∧ total_cards g' = total_cards pile_drawn.
Proof.
  destruct (draw_card_recycles reverse pile_drawn (state_in pile_drawn) 1
              (player_in pile_drawn 1)
              (mkCard "red" "3" "red-3-1")
              (take 11 (discardPile (state_in pile_drawn))))
    as (c & dk' & g' & _ & _ & _ & Hdraw & _ & Htotal).
  - exact reverse_is_shuffle.
  - vm_compute. reflexivity.
  - vm_compute. reflexivity.
  - vm_compute. reflexivity.
  - vm_compute. reflexivity.
  - vm_compute. discriminate.
  - exists g'. split; [exact Hdraw|exact Htotal].
Defined.

(** Witness of C2: Ann plays her last card in the example match. *)
Lemma winning_play_witness :
  sent_of (play_card last_cards "a" "red-3-2" None) = [game_over "Ann"].
Proof.
  destruct (winning_play last_cards (state_in last_cards) 0
              (player_in last_cards 0) "red-3-2" None
              (mkCard "red" "3" "red-3-2")) as [Hplay _].
  - vm_compute. reflexivity.
  - vm_compute. reflexivity.
  - vm_compute. reflexivity.
  - vm_compute. reflexivity.
  - exact (f_equal sent_of Hplay).
Defined.

(** Witness of C3: Ann draws a draw2 card in the three-player example match
    and plays it. *)
Lemma draw2_next_player_draws_witness :
  ∃ g' st',
    play_card draw2_in_hand "a" "red-draw2-1" None = Done g' [game_update]
    ∧ gameState g' = Some st' ∧ currentPlayerIndex st' = 1.
Proof.
  destruct (draw2_next_player_draws draw2_in_hand (state_in draw2_in_hand) 0
              (player_in draw2_in_hand 0) "red-draw2-1" None
              (mkCard "red" "draw2" "red-draw2-1")
              (hand_without "red-draw2-1" (player_in draw2_in_hand 0)))
    as (g' & st' & q & q' & Hplay & Hst & _ & _ & _ & _ & _ & Hcpi & _).
  - vm_compute. reflexivity.
  - vm_compute. reflexivity.
  - vm_compute. reflexivity.
  - vm_compute. reflexivity.
  - vm_compute. discriminate.
  - vm_compute. reflexivity.
  - vm_compute. lia.
  - left. vm_compute. reflexivity.
  - exists g', st'. split; [exact Hplay|]. split; [exact Hst|].
    rewrite Hcpi. vm_compute. reflexivity.
Defined.

(** Witness of C7: Ann goes down to one card in the example match without
    declaring. *)
Lemma penalty_draw_witness :
  ∃ g' p', play_card two_cards_each "a" "red-3-1" None = Done g' [game_update]
           ∧ players g' !! 0%nat = Some p' ∧ length (hand p') = 3%nat.
Proof.
  destruct (penalty_draw two_cards_each (state_in two_cards_each) 0
              (player_in two_cards_each 0) "red-3-1" None
              (mkCard "red" "3" "red-3-1")
              (hand_without "red-3-1" (player_in two_cards_each 0)))
    as (g' & p' & Hplay & Hp' & _ & _ & _ & Hthree).
  - vm_compute. reflexivity.
  - vm_compute. reflexivity.
  - vm_compute. reflexivity.
  - vm_compute. reflexivity.
  - vm_compute. reflexivity.
  - vm_compute. reflexivity.
  - exists g', p'. split; [exact Hplay|]. split; [exact Hp'|].
    apply Hthree; [vm_compute; lia|left; vm_compute; discriminate].
Defined.

(** Witness of C8: Ann declares in the example match with two cards left. *)
Lemma call_uno_declares_witness :
  ∃ g', call_uno two_cards_each "a" = Done g' [game_update]
        ∧ (calledUno <$> players g') = [true; false].
Proof.
  destruct (call_uno_declares two_cards_each (state_in two_cards_each) "a")
    as (g' & Hcall & _).
  - vm_compute. reflexivity.
  - exists g'. split; [exact Hcall|].
    assert (g' = state_of (call_uno two_cards_each "a")) as ->
      by (by rewrite Hcall).
    vm_compute. reflexivity.
Defined.

(** Witness of C10: Ann's first play in the example match. *)
Lemma play_card_clears_flags_witness :
  ∃ g' st' p',
    play_card started2 "a" "red-0-1" None = Done g' [game_update]
    ∧ gameState g' = Some st' ∧ hasDrawn st' = false
    ∧ players g' !! 0%nat = Some p' ∧ calledUno p' = false.
Proof.
  destruct (play_card_clears_flags started2 (state_in started2) 0
              (player_in started2 0) "red-0-1" None
              (mkCard "red" "0" "red-0-1"))
    as (g' & st' & p' & Hplay & Hst & Hdrawn & Hp' & Hflag & _).
  - vm_compute. reflexivity.
  - vm_compute. reflexivity.
  - vm_compute. reflexivity.
  - vm_compute. lia.
  - exists g', st', p'. repeat split; assumption.
Defined.

(** ** Where the code departs from the specification *)

(** Against C2: in the example match Ann wins, and the match goes on taking
    messages.  Her next [draw_card] puts a card in her hand and sets
    [hasDrawn]; Bob's [play_card] is rejected only because the turn has not
    moved. *)
Lemma no_finished_phase :
  play_card last_cards "a" "red-3-2" None = Done won_match [game_over "Ann"]
  ∧ winner (state_in won_match) = Some "Ann"
  ∧ hand_sizes won_match = [0; 1]%nat
  ∧ sent_of (draw_card reverse won_match "a") = [game_update]
  ∧ hand_sizes (state_of (draw_card reverse won_match "a")) = [1; 1]%nat
  ∧ state_of (draw_card reverse won_match "a") ≠ won_match.
Proof.
  split_and!; [by vm_compute..|].
  intros Heq%(f_equal hand_sizes). vm_compute in Heq. discriminate.
Qed.

(** Against C3: in the three-player example match Ann plays a draw2 card.
    Bob, the next player, draws two cards, and the turn is Bob's (index 1),
    not Cy's (index 2). *)
Lemma draw2_does_not_skip :
  sent_of (play_card draw2_in_hand "a" "red-draw2-1" None) = [game_update]
  ∧ currentPlayerIndex (state_in draw2_in_hand) = 0
  ∧ direction (state_in draw2_in_hand) = 1
  ∧ hand_sizes draw2_in_hand = [9; 7; 7]%nat
  ∧ hand_sizes (state_of (play_card draw2_in_hand "a" "red-draw2-1" None))
    = [8; 9; 7]%nat
  ∧ currentPlayerIndex
      (state_in (state_of (play_card draw2_in_hand "a" "red-draw2-1" None)))
    = 1
  ∧ currentPlayerIndex
      (state_in (state_of (play_card draw2_in_hand "a" "red-draw2-1" None)))
    ≠ 2.
Proof. split_and!; by vm_compute. Qed.

(** Against C7: in the example match Ann has drawn the whole draw pile.  Bob
    then goes from two cards to one without having declared, and his hand
    stays at one card: there is nothing to draw and nothing is recycled. *)
Lemma penalty_on_empty_pile :
  sent_of (play_card pile_drawn "b" "red-6-2" None) = [game_update]
  ∧ currentPlayerIndex (state_in pile_drawn) = 1
  ∧ calledUno (player_in pile_drawn 1) = false
  ∧ length (deck (state_in pile_drawn)) = 0%nat
  ∧ hand_sizes pile_drawn = [94; 2]%nat
  ∧ hand_sizes (state_of (play_card pile_drawn "b" "red-6-2" None))
    = [94; 1]%nat
  ∧ length (hand (player_in
                    (state_of (play_card pile_drawn "b" "red-6-2" None)) 1))
    ≠ 3%nat.
Proof. split_and!; by vm_compute. Qed.

(** Against C8: in the freshly started example match Ann holds seven cards;
    her [call_uno] changes nothing, and a [game_update] goes out all the
    same. *)
Lemma call_uno_always_broadcasts :
  length (hand (player_in started2 0)) = 7%nat
  ∧ call_uno started2 "a" = Done started2 [game_update]
  ∧ sent_of (call_uno started2 "a") ≠ [].
Proof. split_and!; by vm_compute. Qed.

(** C9 fails on the code.  The example match is started and Ann, whose turn
    it is, sends [draw_card] 93 times: each draw succeeds, the draw pile is
    then empty and the discard pile still holds the seed card alone.  Her
    next [draw_card] pops the seed, shuffles an empty pile, puts the seed
    back and raises [IndexError] on the pop of the empty draw pile. *)
Theorem draw_card_exhausts_piles :
  start_game reverse lobby2 "a" = Done started2 [game_started]
  ∧ piles_exhausted = run started2 (repeat (DrawCard reverse "a") 93)
  ∧ Forall op_ok (repeat (DrawCard reverse "a") 93)
  ∧ current_player piles_exhausted = Some (0%nat, player_in piles_exhausted 0)
  ∧ player_id (player_in piles_exhausted 0) = "a"
  ∧ winner (state_in piles_exhausted) = None
  ∧ deck (state_in piles_exhausted) = []
  ∧ (card_id <$> discardPile (state_in piles_exhausted)) = ["red-7-2"]
  ∧ hand_sizes piles_exhausted = [100; 7]%nat
  ∧ total_cards piles_exhausted = 108%nat
  ∧ draw_card reverse piles_exhausted "a" = Raised IndexError piles_exhausted.
Proof.
  split_and!; try by vm_compute.
  apply repeat_draw_ok.
Qed.

(** * Further properties of the code *)

(** ** The roster *)

Lemma roster_of_alter f i ps :
  (∀ p, player_id (f p) = player_id p ∧ name (f p) = name p
        ∧ isHost (f p) = isHost p) →
  roster_of (alter f i ps) = roster_of ps.
Proof.
  intros Hf. unfold roster_of. revert i.
  induction ps as [|p ps IH]; intros [|i]; simpl; [done..| |].
  - destruct (Hf p) as (-> & -> & ->). done.
  - f_equal. apply IH.
Qed.

Lemma roster_of_extend cs i ps : roster_of (alter (extend cs) i ps) = roster_of ps.
Proof. by apply roster_of_alter. Qed.

Lemma roster_of_declare pid ps : roster_of (declare pid <$> ps) = roster_of ps.
Proof.
  unfold roster_of. rewrite <- list_fmap_compose. apply list_fmap_ext.
  intros _ p _. simpl. unfold declare. by destruct (_ && _).
Qed.

Lemma roster_of_length ps ps' : roster_of ps' = roster_of ps → length ps' = length ps.
Proof.
  intros H%(f_equal length). unfold roster_of in H.
  by rewrite !length_fmap in H.
Qed.

Lemma roster_of_isHost ps ps' :
  roster_of ps' = roster_of ps → isHost <$> ps' = isHost <$> ps.
Proof.
  intros H%(f_equal (fmap snd)). unfold roster_of in H.
  by rewrite <- !list_fmap_compose in H.
Qed.

Lemma deal_roster ps dk : roster_of (deal ps dk).1 = roster_of ps.
Proof.
  revert dk. induction ps as [|p ps IH]; intros dk; cbn [deal]; [done|].
  destruct (pop_n 7 dk) as [[h dk1]|]; [|done].
  specialize (IH dk1). destruct (deal ps dk1) as [ps2 r]. simpl in *.
  by rewrite IH.
Qed.

Lemma apply_effect_roster card ps st ps' st' :
  apply_effect card ps st = inr (ps', st') → roster_of ps' = roster_of ps.
Proof.
  unfold apply_effect. repeat case_decide.
  - by intros [= <- _].
  - destruct (get_next_player_index ps st); [|discriminate]. by intros [= <- _].
  - destruct (get_next_player_index ps st) as [nxt|]; [|discriminate].
    destruct (py_getitem ps nxt) as [[j q]|]; [|discriminate].
    rewrite draw_two_spec. intros [= <- _]. apply roster_of_extend.
  - by intros [= <- _].
Qed.

Lemma play_card_roster g pid cid chosen :
  roster_of (players (state_of (play_card g pid cid chosen)))
  = roster_of (players g).
Proof.
  unfold play_card.
  destruct (gameState g) as [st|]; [|done].
  destruct (py_getitem _ _) as [[i p]|]; [|done].
  case_decide; [done|].
  destruct (find_card cid _) as [card|]; [|done].
  destruct (py_remove card _) as [h1|]; [|done].
  unfold resolve_play.
  assert (roster_of (alter (set_hand h1) i (players g)) = roster_of (players g))
    as H1 by (by apply roster_of_alter).
  case_decide; [done|].
  destruct (if _ && _ then _ else _) as [ps2 dk2] eqn:Hpen.
  assert (roster_of ps2 = roster_of (players g)) as H2.
  { destruct (_ && _).
    - rewrite draw_two_spec in Hpen. injection Hpen as <- _.
      by rewrite roster_of_extend.
    - by injection Hpen as <- _. }
  assert (roster_of (alter (set_calledUno false) i ps2) = roster_of (players g))
    as H3 by (by rewrite roster_of_alter).
  destruct (apply_effect _ _ _) as [e|[ps4 st4]] eqn:Heff; [done|].
  apply apply_effect_roster in Heff.
  destruct (advance_turn _ _); simpl; congruence.
Qed.

Lemma draw_card_roster sh g pid :
  roster_of (players (state_of (draw_card sh g pid))) = roster_of (players g).
Proof.
  unfold draw_card.
  destruct (gameState g) as [st|]; [|done].
  destruct (py_getitem _ _) as [[i p]|]; [|done].
  case_decide; [done|].
  destruct (recycle sh st) as [st1|]; [|done].
  destruct (pop (deck st1)) as [[c dk']|]; [|done].
  simpl. change (hand_append c) with (extend [c]). apply roster_of_extend.
Qed.

Lemma call_uno_roster g pid :
  roster_of (players (state_of (call_uno g pid))) = roster_of (players g).
Proof.
  unfold call_uno. destruct (gameState g); [|done]. apply roster_of_declare.
Qed.

Lemma start_game_roster sh g pid :
  roster_of (players (state_of (start_game sh g pid))) = roster_of (players g).
Proof.
  unfold start_game. destruct (negb _); [done|].
  pose proof (deal_roster (players g) (create_deck sh)) as Hd.
  destruct (deal _ _) as [ps [dk|]]; [|done].
  destruct (pop dk) as [[start0 dk0]|]; [|done].
  by destruct (seed_loop _ dk0 start0) as [[seed dk1]|].
Qed.

(** X2. No in-game message changes who is in the match: after any sequence
    of [play_card], [draw_card] and [call_uno] messages the ids, names and
    host flags of the roster, and their order, are what they were. *)
Theorem roster_fixed_in_game g ops :
  roster_of (players (run g ops)) = roster_of (players g).
Proof.
  revert g. unfold run. induction ops as [|o ops IH]; intros g; simpl; [done|].
  rewrite IH. destruct o; simpl;
    auto using play_card_roster, draw_card_roster, call_uno_roster.
Qed.

(** ** Card ids *)

Lemma unshuffled_ids_NoDup : NoDup (card_id <$> unshuffled_deck).
Proof. apply (bool_decide_unpack _). by vm_compute. Qed.

(** X1. In every match reached from a start, the ids of the cards in the
    hands, the draw pile and the discard pile are pairwise distinct: an id
    names one card of the match, the one [play_card] looks up by it. *)
Theorem card_ids_unique sh g0 pid g ops :
  is_shuffle sh → start_game sh g0 pid = Done g [game_started] →
  Forall op_ok ops →
  NoDup (card_id <$> all_cards (run g ops))
  ∧ ∀ c1 c2, c1 ∈ all_cards (run g ops) → c2 ∈ all_cards (run g ops) →
             card_id c1 = card_id c2 → c1 = c2.
Proof.
  intros Hsh Hstart Hops.
  assert (all_cards (run g ops) ≡ₚ unshuffled_deck) as Hperm.
  { rewrite run_cards by done. by eapply start_game_cards. }
  assert (NoDup (card_id <$> all_cards (run g ops))) as Hnd.
  { rewrite Hperm. apply unshuffled_ids_NoDup. }
  split; [done|]. intros c1 c2 H1 H2 Hid.
  apply list_elem_of_lookup in H1 as [i1 H1], H2 as [i2 H2].
  assert (i1 = i2) as ->; [|congruence].
  eapply NoDup_lookup; [exact Hnd| |];
    rewrite list_lookup_fmap; [by rewrite H1|by rewrite H2, Hid].
Qed.

(** ** The shape of the matches in the registry *)

Lemma turn_ok_ext g g' :
  gameState g' = gameState g → length (players g') = length (players g) →
  turn_ok g → turn_ok g'.
Proof.
  intros Hst Hlen (st & ? & ? & ? & ?). exists st. by rewrite Hst, Hlen.
Qed.

Lemma play_card_started g pid cid chosen :
  started (state_of (play_card g pid cid chosen)) = started g.
Proof.
  unfold play_card, resolve_play. repeat (case_match || case_decide); done.
Qed.

Lemma draw_card_started sh g pid :
  started (state_of (draw_card sh g pid)) = started g.
Proof. unfold draw_card. repeat (case_match || case_decide); done. Qed.

Lemma call_uno_started g pid :
  started (state_of (call_uno g pid)) = started g.
Proof. unfold call_uno. by case_match. Qed.

Lemma play_card_not_started g pid cid chosen :
  gameState g = None → play_card g pid cid chosen = Raised TypeError g.
Proof. intros Hst. unfold play_card. by rewrite Hst. Qed.

Lemma draw_card_not_started sh g pid :
  gameState g = None → draw_card sh g pid = Raised TypeError g.
Proof. intros Hst. unfold draw_card. by rewrite Hst. Qed.

Lemma call_uno_not_started g pid :
  gameState g = None → call_uno g pid = Raised TypeError g.
Proof. intros Hst. unfold call_uno. by rewrite Hst. Qed.

(** A handler body that keeps the roster and [started], and the soundness
    of the turn state, keeps the shape of the match. *)
Lemma match_ok_kept g g' :
  roster_of (players g') = roster_of (players g) →
  started g' = started g →
  (gameState g = None → g' = g) →
  (turn_ok g → turn_ok g') →
  match_ok g → match_ok g'.
Proof.
  intros Hros Hsta Hnone Hturn (Hhost & Hstarted & Hok).
  destruct (gameState g) as [st|] eqn:Hst.
  - assert (turn_ok g') as Hok' by (apply Hturn, Hok; eauto).
    split_and!.
    + by rewrite (roster_of_isHost _ _ Hros).
    + rewrite Hsta, Hstarted. destruct Hok' as (st' & -> & _).
      split; eauto.
    + done.
  - rewrite (Hnone eq_refl). split_and!; rewrite ?Hst; done.
Qed.

Lemma step_match_ok g o : match_ok g → match_ok (state_of (step g o)).
Proof.
  destruct o; simpl; apply match_ok_kept.
  - apply play_card_roster.
  - apply play_card_started.
  - intros Hst. by rewrite play_card_not_started.
  - apply play_card_turn_ok.
  - apply draw_card_roster.
  - apply draw_card_started.
  - intros Hst. by rewrite draw_card_not_started.
  - apply draw_card_turn_ok.
  - apply call_uno_roster.
  - apply call_uno_started.
  - intros Hst. by rewrite call_uno_not_started.
  - apply call_uno_turn_ok.
Qed.

Lemma start_game_match_ok sh g pid :
  match_ok g → match_ok (state_of (start_game sh g pid)).
Proof.
  intros Hg. pose proof Hg as (Hhost & Hstarted & Hok).
  pose proof (start_game_roster sh g pid) as Hros.
  destruct (start_game sh g pid) as [g' sent|e g'|g'] eqn:Hstart; simpl in *.
  - pose proof (start_game_Done _ _ _ _ _ Hstart)
      as [(_ & -> & _)|(_ & Hsent & ps & dk & s0 & dk0 & seed & dk1 & _ & _ & _ & Hg')];
      [done|].
    subst sent. split_and!.
    + by rewrite (roster_of_isHost _ _ Hros).
    + rewrite Hg'. simpl. split; eauto.
    + intros _. by eapply start_game_turn_ok.
  - assert (started g' = started g ∧ gameState g' = gameState g) as [Hs Hst].
    { unfold start_game in Hstart. destruct (negb _); [discriminate|].
      destruct (deal _ _) as [ps [dk|]]; [|by injection Hstart as _ <-].
      destruct (pop dk) as [[start0 dk0]|]; [|by injection Hstart as _ <-].
      by destruct (seed_loop _ dk0 start0) as [[seed dk1]|]. }
    split_and!.
    + by rewrite (roster_of_isHost _ _ Hros).
    + by rewrite Hs, Hst.
    + rewrite Hst. intros H. eapply turn_ok_ext; eauto using roster_of_length.
  - assert (started g' = started g ∧ gameState g' = gameState g) as [Hs Hst].
    { unfold start_game in Hstart. destruct (negb _); [discriminate|].
      destruct (deal _ _) as [ps [dk|]]; [|discriminate].
      destruct (pop dk) as [[start0 dk0]|]; [|discriminate].
      destruct (seed_loop _ dk0 start0) as [[seed dk1]|]; [discriminate|].
      by injection Hstart as <-. }
    split_and!.
    + by rewrite (roster_of_isHost _ _ Hros).
    + by rewrite Hs, Hst.
    + rewrite Hst. intros H. eapply turn_ok_ext; eauto using roster_of_length.
Qed.

Lemma store_registry_ok (games : gmap string Game) code o :
  map_Forall (fun _ => match_ok) games → match_ok (state_of o) →
  map_Forall (fun _ => match_ok) (state_of (store games code o)).
Proof.
  intros Hgs Ho. destruct o; simpl in *; by apply map_Forall_insert_2.
Qed.

Lemma handler_registry_ok (games : gmap string Game) r :
  map_Forall (fun _ => match_ok) games →
  map_Forall (fun _ => match_ok) (state_of (handler games r)).
Proof.
  intros Hgs. destruct r; simpl.
  - apply map_Forall_insert_2; [|done]. split_and!.
    + by exists 0%nat.
    + simpl. split; [done|]. by intros [? [=]].
    + simpl. by intros [? [=]].
  - unfold handle_join_game. destruct (games !! code) as [g|] eqn:Hg; [|done].
    destruct (started g) eqn:Hs; [done|]. simpl.
    apply map_Forall_insert_2; [|done].
    destruct (Hgs _ _ Hg) as ((n & Hhost) & Hstarted & Hok).
    split_and!; simpl.
    + exists (S n). rewrite fmap_app, Hhost. simpl.
      by rewrite <- replicate_cons_app.
    + by rewrite <- Hstarted, Hs.
    + intros Hsome. apply Hstarted in Hsome. congruence.
  - unfold handle_start_game. destruct (games !! code) as [g|] eqn:Hg; [|done].
    apply store_registry_ok; [done|]. apply start_game_match_ok. eauto.
  - unfold handle_play_card. destruct (games !! code) as [g|] eqn:Hg; [|done].
    apply store_registry_ok; [done|].
    apply (step_match_ok g (PlayCard pid cid chosen)). eauto.
  - unfold handle_draw. destruct (games !! code) as [g|] eqn:Hg; [|done].
    apply store_registry_ok; [done|].
    apply (step_match_ok g (DrawCard sh pid)). eauto.
  - unfold handle_call_uno. destruct (games !! code) as [g|] eqn:Hg; [|done].
    apply store_registry_ok; [done|].
    apply (step_match_ok g (CallUno pid)). eauto.
  - done.
Qed.

Lemma serve_registry_ok (games : gmap string Game) rs :
  map_Forall (fun _ => match_ok) games →
  map_Forall (fun _ => match_ok) (serve games rs).
Proof.
  revert games. induction rs as [|r rs IH]; intros games Hgs; simpl; [done|].
  pose proof (handler_registry_ok games r Hgs) as Hr.
  destruct (handler games r); simpl in Hr; auto.
Qed.

Lemma served_matches_shape rs code g :
  serve ∅ rs !! code = Some g → match_ok g.
Proof.
  intros Hg. eapply (serve_registry_ok ∅ rs); [|done].
  apply map_Forall_empty.
Qed.

(** X3. Whatever messages the server has handled since it came up, every
    match in the registry has a roster that is not empty, whose first entry
    is the host and the only one; it is marked [started] exactly when it has
    a [gameState]; and then [currentPlayerIndex] is an index of the roster,
    [direction] is [1] or [-1] and the discard pile is not empty. *)
Theorem served_matches_ok rs code g :
  serve ∅ rs !! code = Some g → match_ok g.
Proof. apply served_matches_shape. Qed.

(** ** Which handlers raise, and when *)

Lemma turn_ok_current g st :
  turn_ok g → gameState g = Some st →
  ∃ p, py_getitem (players g) (currentPlayerIndex st)
       = Some (Z.to_nat (currentPlayerIndex st), p).
Proof.
  intros (st' & Hst' & _ & Hcpi & _) Hst.
  assert (st' = st) as -> by congruence.
  rewrite py_getitem_in_range by done.
  destruct (lookup_lt_is_Some_2 (players g) (Z.to_nat (currentPlayerIndex st)))
    as [p ->]; [lia|]. by exists p.
Qed.

Lemma play_card_returns g pid cid chosen :
  turn_ok g →
  ∃ g' sent, play_card g pid cid chosen = Done g' sent.
Proof.
  intros Hg. pose proof Hg as (st & Hst & _).
  destruct (turn_ok_current g st Hg Hst) as [p Hi].
  destruct (decide (player_id p = pid)) as [<-|Hne].
  2:{ unfold play_card. rewrite Hst, Hi, decide_True by done. eauto. }
  destruct (find_card cid (hand p)) as [card|] eqn:Hfind.
  2:{ unfold play_card. rewrite Hst, Hi, Hfind.
      rewrite decide_False by (by intros []). eauto. }
  destruct (play_card_accepted g st _ p cid chosen card Hst Hi Hfind)
    as (h1 & _ & _ & ->).
  destruct (decide (length h1 = 0%nat)) as [Hh1|Hh1].
  { unfold resolve_play. rewrite decide_True by done. eauto. }
  apply py_getitem_Some in Hi.
  destruct (resolve_play_continues g st _ p card h1 chosen Hi Hh1)
    as (ps4 & st4 & st5 & _ & _ & _ & ->). eauto.
Qed.

(** X4. In a registry reached by serving messages, a [play_card] message
    never raises on a started match: it returns.  It raises, a [TypeError]
    that leaves the registry as it was, exactly when the match under its
    code has not been started; for an unknown code it returns at once. *)
Theorem served_play_card_outcome rs code pid cid chosen :
  let games := serve ∅ rs in
  match games !! code with
  | None => handle_play_card games code pid cid chosen = Done games []
  | Some g =>
      if started g
      then ∃ games' sent,
             handle_play_card games code pid cid chosen = Done games' sent
      else handle_play_card games code pid cid chosen = Raised TypeError games
  end.
Proof.
  intros games. unfold handle_play_card.
  destruct (games !! code) as [g|] eqn:Hg; [|done].
  destruct (served_matches_shape rs code g Hg) as (_ & Hstarted & Hok).
  destruct (started g).
  - destruct (play_card_returns g pid cid chosen) as (g' & sent & ->).
    { apply Hok, Hstarted. done. }
    simpl. eauto.
  - rewrite play_card_not_started. { simpl. by rewrite insert_id. }
    destruct (gameState g) eqn:Hst; [|done].
    assert (false = true) as [=]. apply Hstarted. eauto.
Qed.

(** X5. On a started match with a sound turn state, [draw_card] raises in
    one case only: the issuer is the current player, the draw pile is empty
    and the discard pile holds a single card.  It then raises [IndexError]
    and leaves the match exactly as it was.  In every other case it
    returns. *)
Theorem draw_card_raises_iff sh g st pid :
  is_shuffle sh → turn_ok g → gameState g = Some st →
  ∃ i p,
    current_player g = Some (i, p)
    ∧ if decide (player_id p = pid ∧ deck st = []
                 ∧ length (discardPile st) = 1%nat)
      then draw_card sh g pid = Raised IndexError g
      else ∃ g' sent, draw_card sh g pid = Done g' sent.
Proof.
  intros Hsh Hg Hst. destruct (turn_ok_current g st Hg Hst) as [p Hi].
  destruct Hg as (st' & Hst' & _ & _ & Hdp).
  assert (st' = st) as -> by congruence.
  exists (Z.to_nat (currentPlayerIndex st)), p. split.
  { unfold current_player. rewrite Hst. exact Hi. }
  unfold draw_card. rewrite Hst, Hi.
  destruct (decide (player_id p = pid)) as [Hid|Hid].
  2:{ rewrite decide_False by tauto. rewrite decide_True by done. eauto. }
  rewrite (decide_False (P := player_id p ≠ pid)) by tauto.
  unfold recycle.
  destruct (discardPile st) as [|top rest _] eqn:Hdisc using rev_ind; [done|].
  destruct (decide (deck st = [])) as [Hdk|Hdk].
  - rewrite pop_snoc. simpl. rewrite length_app. simpl.
    destruct rest as [|r rest].
    + rewrite decide_True by done.
      assert (sh [] = []) as Hnil.
      { pose proof (Permutation_length (Hsh [])) as Hlen.
        by destruct (sh []). }
      rewrite Hnil. simpl. f_equal.
      destruct g as [ps b gs]. simpl in *. subst gs. do 2 f_equal.
      destruct st. simpl in *. unfold set_deck_discard. simpl. congruence.
    + rewrite decide_False by (simpl; lia).
      destruct (sh (r :: rest)) as [|c dk' _] eqn:Hshr using rev_ind.
      { pose proof (Hsh (r :: rest)) as Hperm. rewrite Hshr in Hperm.
        by apply Permutation_nil_l in Hperm. }
      rewrite pop_snoc. eauto.
  - rewrite decide_False by tauto.
    destruct (deck st) as [|c dk' _] using rev_ind; [done|].
    rewrite pop_snoc. eauto.
Qed.

(** X12. Before the start the in-game handlers only raise.  On a match
    without a [gameState], [play_card], [draw_card] and [call_uno] raise
    [TypeError] and the registry is left as it was.  For a code that is not
    in the registry, [play_card] and [draw_card] return without a word,
    while [call_uno] raises [KeyError]. *)
Theorem in_game_messages_before_start sh (games : gmap string Game)
    code pid cid chosen :
  match games !! code with
  | Some g =>
      gameState g = None →
      handle_play_card games code pid cid chosen = Raised TypeError games
      ∧ handle_draw sh games code pid = Raised TypeError games
      ∧ handle_call_uno games code pid = Raised TypeError games
  | None =>
      handle_play_card games code pid cid chosen = Done games []
      ∧ handle_draw sh games code pid = Done games []
      ∧ handle_call_uno games code pid = Raised KeyError games
  end.
Proof.
  unfold handle_play_card, handle_draw, handle_call_uno.
  destruct (games !! code) as [g|] eqn:Hg; [|done].
  intros Hst.
  rewrite play_card_not_started, draw_card_not_started, call_uno_not_started
    by done.
  simpl. by rewrite insert_id.
Qed.

(** ** Where the turn goes *)

Lemma apply_effect_top card ps st ps' st' :
  apply_effect card ps st = inr (ps', st') →
  discardPile st' = discardPile st ∧ currentColor st' = currentColor st
  ∧ currentValue st' = currentValue st ∧ winner st' = winner st.
Proof.
  unfold apply_effect. repeat case_decide.
  - by intros [= <- <-].
  - destruct (get_next_player_index ps st); [|discriminate]. by intros [= <- <-].
  - destruct (get_next_player_index ps st) as [nxt|]; [|discriminate].
    destruct (py_getitem ps nxt) as [[j q]|]; [|discriminate].
    destruct (draw_two j ps (deck st)). by intros [= <- <-].
  - by intros [= <- <-].
Qed.

Lemma advance_turn_top ps st st' :
  advance_turn ps st = Some st' →
  discardPile st' = discardPile st ∧ currentColor st' = currentColor st
  ∧ currentValue st' = currentValue st ∧ winner st' = winner st
  ∧ deck st' = deck st.
Proof.
  unfold advance_turn. destruct (get_next_player_index ps st); [|discriminate].
  by intros [= <-].
Qed.

(** A play that leaves cards in the hand, by the value of the card: the
    roster and the turn state at the end. *)
Lemma play_turn g st i p cid chosen card :
  gameState g = Some st →
  py_getitem (players g) (currentPlayerIndex st) = Some (i, p) →
  find_card cid (hand p) = Some card → length (hand p) ≠ 1%nat →
  let n := Z.of_nat (length (players g)) in
  let cpi := currentPlayerIndex st in
  let dir := direction st in
  ∃ h1 ps4 st4 st5,
    py_remove card (hand p) = Some h1
    ∧ play_card g (player_id p) cid chosen
      = Done (mkGame ps4 (started g) (Some st5)) [game_update]
    ∧ apply_effect card
        (alter (set_calledUno false) i
           (alter (extend (popped (penalty h1 p) (deck st))) i
              (alter (set_hand h1) i (players g))))
        (mkGameState (take (length (deck st) - penalty h1 p) (deck st))
           (discardPile st ++ [card])
           (if decide (color card = "wild") then chosen else Some (color card))
           (value card) cpi dir (hasDrawn st) (winner st))
      = inr (ps4, st4)
    ∧ deck st5 = deck st4
    ∧ direction st5 = direction st4
    ∧ currentPlayerIndex st5
      = (currentPlayerIndex st4 + direction st4) `mod` n.
Proof.
  intros Hst Hi Hfind Hlen n cpi dir.
  destruct (play_card_accepted g st i p cid chosen card Hst Hi Hfind)
    as (h1 & Hrm & Hlen1 & ->).
  apply py_getitem_Some in Hi.
  destruct (resolve_play_continues g st i p card h1 chosen Hi ltac:(lia))
    as (ps4 & st4 & st5 & Heff & Hadv & Hlen4 & ->).
  exists h1, ps4, st4, st5. split_and!; try done.
  - by apply advance_turn_top in Hadv as (_ & _ & _ & _ & ?).
  - by apply advance_turn_spec in Hadv as (_ & _ & ?).
  - apply advance_turn_spec in Hadv as (_ & -> & _). unfold n. by rewrite Hlen4.
Qed.

(** X6. A reverse card that is not the last of the hand flips the direction
    and passes the turn one step in the new direction.  With two players
    that is the step an ordinary card makes: the other player is next.
    With three players or more it is the player before, not the one after. *)
Theorem reverse_play g st i p cid chosen card :
  gameState g = Some st →
  py_getitem (players g) (currentPlayerIndex st) = Some (i, p) →
  find_card cid (hand p) = Some card → length (hand p) ≠ 1%nat →
  value card = "reverse" →
  let n := Z.of_nat (length (players g)) in
  let cpi := currentPlayerIndex st in
  let dir := direction st in
  ∃ g' st',
    play_card g (player_id p) cid chosen = Done g' [game_update]
    ∧ gameState g' = Some st'
    ∧ direction st' = - dir
    ∧ currentPlayerIndex st' = (cpi - dir) `mod` n
    ∧ (n = 2 → currentPlayerIndex st' = (cpi + dir) `mod` n)
    ∧ (3 ≤ n → dir = 1 ∨ dir = -1 →
       currentPlayerIndex st' ≠ (cpi + dir) `mod` n).
Proof.
  intros Hst Hi Hfind Hlen Hv n cpi dir.
  destruct (play_turn g st i p cid chosen card Hst Hi Hfind Hlen)
    as (h1 & ps4 & st4 & st5 & _ & Hplay & Heff & _ & Hdir & Hcpi).
  unfold apply_effect in Heff. rewrite decide_True in Heff by done.
  injection Heff as <- <-. simpl_state. fold n cpi dir in Hcpi, Hdir.
  exists (mkGame (alter (set_calledUno false) i
           (alter (extend (popped (penalty h1 p) (deck st))) i
              (alter (set_hand h1) i (players g)))) (started g) (Some st5)), st5.
  assert (cpi + dir * -1 = cpi - dir) as Heq by lia. rewrite Heq in Hcpi.
  split_and!; [done|done|lia|done| |].
  - intros Hn. rewrite Hcpi, Hn.
    replace (cpi - dir) with (cpi + dir + (- dir) * 2) by lia.
    apply Z_mod_plus_full.
  - intros Hn Hd. rewrite Hcpi. intros Hmod.
    pose proof (Z.div_mod (cpi - dir) n ltac:(lia)) as H1.
    pose proof (Z.div_mod (cpi + dir) n ltac:(lia)) as H2.
    rewrite Hmod in H1.
    generalize dependent ((cpi - dir) `div` n). intros q1 H1.
    generalize dependent ((cpi + dir) `div` n). intros q2 H2.
    assert (n * (q2 - q1) = 2 * dir) as Hq by lia.
    assert (q2 - q1 ≤ -1 ∨ q2 - q1 = 0 ∨ 1 ≤ q2 - q1) as Hcases by lia.
    destruct Hd; subst dir; nia.
Qed.

(** X7. A skip card that is not the last of the hand leaves the direction
    and passes the turn two steps on.  With two players the turn comes back
    to the player who played it. *)
Theorem skip_play g st i p cid chosen card :
  gameState g = Some st →
  py_getitem (players g) (currentPlayerIndex st) = Some (i, p) →
  find_card cid (hand p) = Some card → length (hand p) ≠ 1%nat →
  value card = "skip" →
  let n := Z.of_nat (length (players g)) in
  let cpi := currentPlayerIndex st in
  let dir := direction st in
  ∃ g' st',
    play_card g (player_id p) cid chosen = Done g' [game_update]
    ∧ gameState g' = Some st'
    ∧ direction st' = dir
    ∧ currentPlayerIndex st' = (cpi + 2 * dir) `mod` n
    ∧ (n = 2 → 0 ≤ cpi < 2 → currentPlayerIndex st' = cpi).
Proof.
  intros Hst Hi Hfind Hlen Hv n cpi dir.
  destruct (play_turn g st i p cid chosen card Hst Hi Hfind Hlen)
    as (h1 & ps4 & st4 & st5 & _ & Hplay & Heff & _ & Hdir & Hcpi).
  assert (n ≠ 0) as Hn0.
  { apply py_getitem_Some, lookup_lt_Some in Hi. unfold n. lia. }
  unfold apply_effect, get_next_player_index in Heff.
  rewrite decide_False, decide_True in Heff by (by rewrite ?Hv).
  rewrite decide_False in Heff.
  2:{ rewrite !length_alter. unfold n in Hn0. lia. }
  injection Heff as <- <-. simpl_state. rewrite !length_alter in Hcpi.
  fold n cpi dir in Hcpi, Hdir.
  assert (currentPlayerIndex st5 = (cpi + 2 * dir) `mod` n) as Hcpi'.
  { rewrite Hcpi, Z.add_mod_idemp_l by done. f_equal. lia. }
  eexists _, st5. split_and!; [done..|].
  intros Hn Hrange. rewrite Hcpi', Hn.
  replace (cpi + 2 * dir) with (cpi + dir * 2) by lia.
  rewrite Z_mod_plus_full. apply Z.mod_small. lia.
Qed.

(** X8. A card whose value is not reverse, skip or draw2 (a number card, a
    wild, a wild4) has no effect of its own: when it is not the last of the
    hand, the turn passes one step on in the same direction, no other
    player's roster entry changes, and the draw pile loses only what the
    penalty of the player took.  A wild4 makes nobody draw. *)
Theorem plain_play g st i p cid chosen card :
  gameState g = Some st →
  py_getitem (players g) (currentPlayerIndex st) = Some (i, p) →
  find_card cid (hand p) = Some card → length (hand p) ≠ 1%nat →
  value card ≠ "reverse" → value card ≠ "skip" → value card ≠ "draw2" →
  ∃ h1 g' st',
    py_remove card (hand p) = Some h1
    ∧ play_card g (player_id p) cid chosen = Done g' [game_update]
    ∧ gameState g' = Some st'
    ∧ direction st' = direction st
    ∧ currentPlayerIndex st'
      = (currentPlayerIndex st + direction st)
          `mod` Z.of_nat (length (players g))
    ∧ deck st' = take (length (deck st) - penalty h1 p) (deck st)
    ∧ (∀ j, j ≠ i → players g' !! j = players g !! j).
Proof.
  intros Hst Hi Hfind Hlen Hv1 Hv2 Hv3.
  destruct (play_turn g st i p cid chosen card Hst Hi Hfind Hlen)
    as (h1 & ps4 & st4 & st5 & Hrm & Hplay & Heff & Hdk & Hdir & Hcpi).
  unfold apply_effect in Heff. rewrite !decide_False in Heff by done.
  injection Heff as <- <-. simpl_state.
  eexists h1, _, st5. split_and!; [done..|].
  intros j Hj. simpl. by apply lookup_not_played.
Qed.

(** X9. The server does not check a play against the active colour and
    value: whatever they are, a play by the current player of a card of
    their hand is accepted.  The card leaves the hand: the hand of the
    player's entry afterwards is the old hand with the first occurrence of
    the card removed, followed only by what the same play draws onto it (the
    penalty draw, and the draw2 cards when the next player is the player
    themself), and it is empty after a play of the last card.  The card
    becomes the top of the discard pile, [currentValue] becomes its value
    and [currentColor] its colour, or for a wild card the colour the message
    carries, which may be none. *)
Theorem play_accepts_any_card g st i p cid chosen card :
  gameState g = Some st →
  py_getitem (players g) (currentPlayerIndex st) = Some (i, p) →
  find_card cid (hand p) = Some card →
  let nxt := (currentPlayerIndex st + direction st)
               `mod` Z.of_nat (length (players g)) in
  ∃ h1 g' st' sent p',
    play_card g (player_id p) cid chosen = Done g' sent
    ∧ gameState g' = Some st'
    ∧ card_id card = cid
    ∧ py_remove card (hand p) = Some h1 ∧ hand p ≡ₚ card :: h1
    ∧ discardPile st' = discardPile st ++ [card]
    ∧ currentValue st' = value card
    ∧ currentColor st'
      = (if decide (color card = "wild") then chosen else Some (color card))
    ∧ players g' !! i = Some p'
    ∧ player_id p' = player_id p
    ∧ hand p'
      = h1 ++ (if decide (length h1 = 0%nat) then []
               else popped (penalty h1 p) (deck st)
                    ++ (if decide (value card = "draw2" ∧ Z.to_nat nxt = i)
                        then popped 2
                               (take (length (deck st) - penalty h1 p)
                                  (deck st))
                        else []))
    ∧ (length h1 = 0%nat → hand p' = []).
Proof.
  intros Hst Hi Hfind nxt.
  destruct (find_card_Some _ _ _ Hfind) as [_ Hcid].
  destruct (play_card_accepted g st i p cid chosen card Hst Hi Hfind)
    as (h1 & Hrm & Hlen1 & ->).
  pose proof (py_remove_Permutation _ _ _ Hrm) as Hperm.
  apply py_getitem_Some in Hi.
  destruct (decide (length h1 = 0%nat)) as [Hlen|Hlen].
  - unfold resolve_play. rewrite decide_True by done.
    eexists h1, _, _, _, (set_hand h1 p). split; [reflexivity|]. simpl_state.
    rewrite list_lookup_alter_eq, Hi. simpl.
    assert (h1 = []) as -> by (by destruct h1).
    by split_and!.
  - destruct (resolve_play_continues g st i p card h1 chosen Hi Hlen)
      as (ps4 & st4 & st5 & Heff & Hadv & _ & ->).
    apply advance_turn_top in Hadv as (Hdp5 & Hcol5 & Hval5 & _).
    pose proof (apply_effect_top _ _ _ _ _ Heff) as (Hdp4 & Hcol4 & Hval4 & _).
    eapply (apply_effect_lookup _ _ _ _ _ i) in Heff; [|by apply lookup_played].
    rewrite !length_alter in Heff. simpl_state. fold nxt in Heff.
    eexists h1, _, st5, _, _. split; [reflexivity|]. simpl_state.
    split_and!; try done; try congruence.
    rewrite (decide_False (P := length h1 = 0%nat)) by done.
    simpl. by rewrite <- app_assoc.
Qed.

(** X11. A [draw_card] by anyone but the player at [currentPlayerIndex]
    returns without a broadcast and leaves the match, and the whole
    registry, as it was. *)
Theorem draw_card_rejected sh g i p pid :
  current_player g = Some (i, p) → player_id p ≠ pid →
  draw_card sh g pid = Done g []
  ∧ ∀ (games : gmap string Game) code,
      games !! code = Some g →
      handle_draw sh games code pid = Done games [].
Proof.
  intros Hcur Hne.
  assert (draw_card sh g pid = Done g []) as Hdraw.
  { unfold current_player in Hcur. unfold draw_card.
    destruct (gameState g) as [st|]; [|discriminate]. simpl in Hcur.
    rewrite Hcur. by rewrite decide_True. }
  split; [done|]. intros games code Hcode.
  unfold handle_draw. rewrite Hcode, Hdraw. simpl. by rewrite insert_id.
Qed.

(** ** Drawing again and again *)

Lemma py_getitem_alter {A} (f : A → A) (l : list A) z i x :
  py_getitem l z = Some (i, x) → py_getitem (alter f i l) z = Some (i, f x).
Proof.
  unfold py_getitem. rewrite length_alter. case_decide; [|discriminate].
  destruct (l !! Z.to_nat _) as [y|] eqn:Hy; [|discriminate].
  simpl. intros [= <- ->]. by rewrite list_lookup_alter_eq, Hy.
Qed.

Lemma popped_S k dk :
  popped k dk ++ popped 1 (take (length dk - k) dk) = popped (S k) dk.
Proof.
  unfold popped. rewrite length_take, <- reverse_app. f_equal.
  rewrite Nat.min_l by lia.
  replace (length dk - S k)%nat with (length dk - k - 1)%nat by lia.
  apply drop_take_drop. lia.
Qed.

Lemma pop_popped (dk : list Card) c dk' :
  pop dk = Some (c, dk') →
  [c] = popped 1 dk ∧ dk' = take (length dk - 1) dk.
Proof.
  intros ->%pop_Some. unfold popped. rewrite length_app. simpl.
  replace (length dk' + 1 - 1)%nat with (length dk') by lia.
  by rewrite drop_app_length, take_app_length.
Qed.

Lemma run_snoc g ops o : run g (ops ++ [o]) = state_of (step (run g ops) o).
Proof. unfold run. by rewrite foldl_app. Qed.

(** X10. Nothing limits the draws of a turn: [hasDrawn] is written and never
    read.  When the current player sends [draw_card] [k] times in a row, [k]
    at least one and at most the size of the draw pile, every draw is
    served: the player's hand has grown by the top [k] cards of the pile, in
    the order drawn, [hasDrawn] is set, and the turn, the direction and the
    discard pile are what they were. *)
Theorem draws_in_a_row sh g st i p k :
  gameState g = Some st →
  py_getitem (players g) (currentPlayerIndex st) = Some (i, p) →
  (0 < k ≤ length (deck st))%nat →
  run g (repeat (DrawCard sh (player_id p)) k)
  = mkGame (alter (extend (popped k (deck st))) i (players g)) (started g)
      (Some (mkGameState (take (length (deck st) - k) (deck st))
               (discardPile st) (currentColor st) (currentValue st)
               (currentPlayerIndex st) (direction st) true (winner st))).
Proof.
  intros Hst Hi [Hk0 Hk]. destruct k as [|k]; [lia|]. clear Hk0.
  induction k as [|k IH].
  - simpl. unfold run. simpl. unfold draw_card. rewrite Hst, Hi.
    rewrite decide_False by (by intros []).
    unfold recycle. rewrite decide_False by (destruct (deck st); [simpl in Hk; lia|done]).
    destruct (pop (deck st)) as [[c dk']|] eqn:Hpop.
    2:{ apply pop_None in Hpop. rewrite Hpop in Hk. simpl in Hk. lia. }
    apply pop_popped in Hpop as [Hc ->]. simpl.
    unfold hand_append. fold (extend [c]). by rewrite Hc.
  - change (repeat (DrawCard sh (player_id p)) (S (S k)))
      with (DrawCard sh (player_id p) :: repeat (DrawCard sh (player_id p)) (S k)).
    rewrite repeat_cons, run_snoc, IH by lia. simpl. unfold draw_card.
    simpl_state. rewrite (py_getitem_alter _ _ _ _ _ Hi). simpl_state.
    rewrite decide_False by (by intros []).
    unfold recycle. simpl_state.
    destruct (pop (take (length (deck st) - S k) (deck st)))
      as [[c dk']|] eqn:Hpop.
    2:{ apply pop_None in Hpop. apply (f_equal length) in Hpop.
        rewrite length_take in Hpop. simpl in Hpop. lia. }
    rewrite decide_False.
    2:{ intros Hnil. rewrite Hnil in Hpop. discriminate. }
    simpl_state. rewrite Hpop. apply pop_popped in Hpop as [Hc ->].
    rewrite list_alter_alter_eq. cbn [state_of]. f_equal.
    + apply list_alter_ext; [|done]. intros q _. cbv [compose].
      change (hand_append c (extend (popped (S k) (deck st)) q))
        with (extend [c] (extend (popped (S k) (deck st)) q)).
      by rewrite extend_extend, Hc, popped_S.
    + do 2 f_equal. rewrite take_take, length_take. f_equal. lia.
Qed.

(** ** Starting: the edges *)

(** How far the dealing loop gets before the deck runs out. *)
Lemma deal_fails ps dk ps' :
  deal ps dk = (ps', None) →
  (length dk / 7 < length ps)%nat
  ∧ Forall (fun p => length (hand p) = 7%nat ∧ calledUno p = false)
      (take (length dk / 7) ps')
  ∧ drop (length dk / 7) ps' = drop (length dk / 7) ps.
Proof.
  revert dk ps'. induction ps as [|p ps IH]; intros dk ps'; cbn [deal].
  { discriminate. }
  destruct (pop_n 7 dk) as [[h dk1]|] eqn:Hn.
  - destruct (deal ps dk1) as [ps2 r] eqn:Hd. intros [= <- ->].
    apply IH in Hd as (Hk & Hall & Hdrop).
    apply pop_n_spec in Hn as [-> Hh].
    rewrite length_app, length_reverse, Hh.
    replace (length dk1 + 7)%nat with (length dk1 + 1 * 7)%nat by lia.
    rewrite Nat.div_add by lia.
    replace (length dk1 / 7 + 1)%nat with (S (length dk1 / 7)) by lia.
    cbn [length take drop]. split_and!; [lia| |done]. by constructor.
  - intros [= <-]. apply pop_n_None in Hn.
    rewrite Nat.div_small by lia. cbn [length take drop].
    split_and!; [lia|done..].
Qed.

(** X13. A start on a roster of sixteen players or more raises [IndexError]
    while dealing: the deck gives out in the sixteenth hand.  The match keeps
    its [started] flag and [gameState], but the dealing is not undone: the
    first fifteen players hold seven cards each with their flag cleared, and
    the others are as they were. *)
Theorem start_game_too_many sh g pid :
  is_shuffle sh → is_host pid (players g) = true →
  (16 ≤ length (players g))%nat →
  ∃ ps,
    start_game sh g pid = Raised IndexError (mkGame ps (started g) (gameState g))
    ∧ roster_of ps = roster_of (players g)
    ∧ Forall (fun p => length (hand p) = 7%nat ∧ calledUno p = false)
        (take 15 ps)
    ∧ drop 15 ps = drop 15 (players g).
Proof.
  intros Hsh Hhost Hn. pose proof (length_create_deck sh Hsh) as Hlen.
  unfold start_game. rewrite Hhost. cbn [negb].
  pose proof (deal_roster (players g) (create_deck sh)) as Hros.
  destruct (deal _ _) as [ps [dk|]] eqn:Hdeal.
  - apply deal_spec in Hdeal as (Hdk & Hall & Hid & _).
    apply length_hands_dealt in Hall.
    assert (length ps = length (players g)) as Hps.
    { by rewrite <- (length_fmap player_id ps), Hid, length_fmap. }
    rewrite Hdk, length_app, length_reverse in Hlen. lia.
  - apply deal_fails in Hdeal as (_ & Hall & Hdrop). rewrite Hlen in Hall, Hdrop.
    exists ps. simpl in Hros. by split_and!.
Qed.

(** X14. A start on a roster of exactly fifteen players deals 105 cards and
    looks for the seed among the three cards left, the first three of the
    shuffled deck.  When the three are wild the seed loop never ends,
    however many times it goes round, and the handler does not return;
    otherwise the start succeeds. *)
Theorem start_game_fifteen sh g pid :
  is_shuffle sh → is_host pid (players g) = true →
  length (players g) = 15%nat →
  if decide (Forall is_wild (take 3 (create_deck sh)))
  then ∃ ps start0 dk0,
         start_game sh g pid = Diverges (mkGame ps (started g) (gameState g))
         ∧ take 3 (create_deck sh) = dk0 ++ [start0]
         ∧ ∀ fuel, seed_loop fuel dk0 start0 = None
  else ∃ g', start_game sh g pid = Done g' [game_started].
Proof.
  intros Hsh Hhost Hn. pose proof (length_create_deck sh Hsh) as Hlen.
  unfold start_game. rewrite Hhost. cbn [negb].
  destruct (deal_is_Some (players g) (create_deck sh)) as (ps & dk & Hdeal);
    [lia|].
  rewrite Hdeal. apply deal_spec in Hdeal as (Hdk & Hall & Hid & _).
  apply length_hands_dealt in Hall.
  assert (length ps = 15%nat) as Hps.
  { by rewrite <- (length_fmap player_id ps), Hid, length_fmap. }
  assert (length dk = 3%nat) as Hdk3.
  { rewrite Hdk, length_app, length_reverse in Hlen. lia. }
  assert (take 3 (create_deck sh) = dk) as ->.
  { rewrite Hdk. by apply take_app_length'. }
  destruct (pop dk) as [[start0 dk0]|] eqn:Hpop.
  2:{ apply pop_None in Hpop. by subst dk. }
  apply pop_Some in Hpop.
  assert (Forall is_wild dk ↔ Forall is_wild (start0 :: dk0)) as Hiff.
  { rewrite Hpop. split; intros Hall'.
    - apply Forall_app in Hall' as [H1 H2]. apply Forall_cons. split; [|done].
      by inversion H2.
    - apply Forall_cons in Hall' as [H1 H2]. apply Forall_app.
      split; [done|]. by constructor. }
  case_decide as Hw.
  - apply Hiff in Hw.
    rewrite (seed_loop_wild_forever _ _ _ Hw).
    exists ps, start0, dk0. split_and!; [done..|].
    intros fuel. by apply seed_loop_wild_forever.
  - destruct (seed_loop _ dk0 start0) as [[seed dk1]|] eqn:Hseed; [eauto|].
    apply seed_loop_all_wild in Hseed. by apply Hiff in Hseed.
Qed.

Lemma is_host_roster pid ps1 ps2 :
  roster_of ps1 = roster_of ps2 → is_host pid ps1 = is_host pid ps2.
Proof.
  unfold roster_of, is_host. revert ps2.
  induction ps1 as [|p1 ps1 IH]; intros [|p2 ps2]; simpl; try done.
  intros [= Hid _ Hhost Hrest]. by rewrite Hid, Hhost, (IH ps2).
Qed.

Lemma deal_roster_eq ps1 ps2 dk :
  roster_of ps1 = roster_of ps2 →
  ∀ ps' dk', deal ps1 dk = (ps', Some dk') → deal ps2 dk = (ps', Some dk').
Proof.
  unfold roster_of. revert ps2 dk.
  induction ps1 as [|p1 ps1 IH]; intros [|p2 ps2] dk; try done.
  rewrite !fmap_cons. intros [= Hid Hnm Hhost Hrest] ps' dk'. cbn [deal].
  destruct (pop_n 7 dk) as [[h dk1]|]; [|done].
  destruct (deal ps1 dk1) as [ps1' r] eqn:Hd. intros [= <- ->].
  rewrite (IH ps2 dk1 Hrest ps1' dk' Hd).
  unfold set_calledUno, set_hand. simpl. by rewrite Hid, Hnm, Hhost.
Qed.

(** X15. A start looks only at who is in the roster.  Two matches with the
    same ids, names and host flags, started by the host with the same
    shuffle, end in the same state when the start returns: the hands held,
    the flags and any game in progress are discarded, so the host of a
    running match can restart it at any time. *)
Theorem start_game_forgets sh g1 g2 pid g' :
  roster_of (players g1) = roster_of (players g2) →
  start_game sh g1 pid = Done g' [game_started] →
  start_game sh g2 pid = Done g' [game_started].
Proof.
  intros Hros [(_ & _ & [=])|(Hhost & _ & Hok)]%start_game_Done.
  destruct Hok as (ps & dk & start0 & dk0 & seed & dk1 & Hdeal & Hpop & Hseed & ->).
  unfold start_game.
  rewrite <- (is_host_roster pid _ _ Hros), Hhost. cbn [negb].
  by rewrite (deal_roster_eq _ _ _ Hros _ _ Hdeal), Hpop, Hseed.
Qed.

(** ** The lobby *)

Lemma is_host_no_host pid (ps : list Player) n :
  isHost <$> ps = replicate n false → is_host pid ps = false.
Proof.
  unfold is_host. revert n. induction ps as [|p ps IH]; intros [|n]; try done.
  simpl. intros [= -> Hrest]. rewrite andb_false_r. simpl. by eapply IH.
Qed.

(** X16. In a registry reached by serving messages, only the player who
    created a match can start it: a [start_game] with any other id than that
    of the first roster entry returns without a broadcast and leaves the
    registry as it was. *)
Theorem served_start_needs_host sh rs code g h rest pid :
  serve ∅ rs !! code = Some g → players g = h :: rest →
  player_id h ≠ pid →
  handle_start_game sh (serve ∅ rs) code pid = Done (serve ∅ rs) [].
Proof.
  intros Hg Hps Hne. unfold handle_start_game. rewrite Hg.
  destruct (served_matches_shape rs code g Hg) as ((n & Hhost) & _).
  unfold start_game.
  assert (is_host pid (players g) = false) as ->.
  { rewrite Hps in Hhost |- *. injection Hhost as _ Hrest.
    unfold is_host. simpl. rewrite bool_decide_eq_false_2 by done. simpl.
    by apply (is_host_no_host pid rest n). }
  simpl. by rewrite insert_id.
Qed.

Lemma start_game_stays_started sh g pid :
  started g = true → started (state_of (start_game sh g pid)) = true.
Proof.
  intros Hs. unfold start_game. destruct (negb _); [done|].
  destruct (deal _ _) as [ps [dk|]]; [|done].
  destruct (pop dk) as [[start0 dk0]|]; [|done].
  by destruct (seed_loop _ dk0 start0) as [[seed dk1]|].
Qed.

(** X17. Once a match is started its roster is closed and it stays started:
    whatever message is handled next, short of a [create_game] that draws
    the code of the match, the match is still in the registry under its
    code, marked [started], with the same ids, names and host flags in the
    same order.  A [join_game] to it is answered with an error, and a
    message for another code does not touch it at all.  A [create_game]
    that draws its code replaces it by a new lobby. *)
Theorem started_match_is_closed (games : gmap string Game) code g r :
  games !! code = Some g → started g = true →
  ((∀ pid pname, r ≠ ReqCreate code pid pname) →
   ∃ g', state_of (handler games r) !! code = Some g'
         ∧ started g' = true
         ∧ roster_of (players g') = roster_of (players g)
         ∧ (code_of r ≠ Some code → g' = g))
  ∧ (∀ pid pname,
       handle_join_game games code pid pname = Done games [error "Game started"])
  ∧ (∀ pid pname,
       state_of (handler games (ReqCreate code pid pname)) !! code
       = Some (mkGame [mkPlayer pid pname true [] false] false None)).
Proof.
  intros Hg Hs. split_and!.
  - intros Hr.
    assert (∀ o : outcome Game,
              started (state_of o) = true →
              roster_of (players (state_of o)) = roster_of (players g) →
              ∀ c, ∃ g', state_of (store games c o) !! code = Some g'
                ∧ started g' = true
                ∧ roster_of (players g') = roster_of (players g)
                ∧ (Some c ≠ Some code → g' = g)) as Hstore.
    { intros o Ho1 Ho2 c. destruct (decide (c = code)) as [->|Hc].
      - rewrite store_lookup. eexists. split_and!; try done.
      - rewrite store_lookup_ne by done. exists g. by rewrite Hg. }
    assert (∃ g', games !! code = Some g' ∧ started g' = true
                  ∧ roster_of (players g') = roster_of (players g)
                  ∧ (code_of r ≠ Some code → g' = g)) as Hsame.
    { exists g. by rewrite Hg. }
    destruct r as [c p n|c p n|sh c p|c p cid ch|sh c p|c p|t]; simpl.
    + destruct (decide (c = code)) as [->|Hc].
      * by destruct (Hr p n).
      * rewrite lookup_insert_ne by done. exists g. by rewrite Hg.
    + unfold handle_join_game. destruct (games !! c) as [gc|] eqn:Hc; [|done].
      destruct (started gc) eqn:Hsc; [done|]. simpl.
      assert (c ≠ code) by (intros ->; congruence).
      rewrite lookup_insert_ne by done. exists g. by rewrite Hg.
    + unfold handle_start_game. destruct (games !! c) as [gc|] eqn:Hc; [|done].
      destruct (decide (c = code)) as [->|Hne].
      * assert (gc = g) as -> by congruence. apply Hstore.
        -- by apply start_game_stays_started.
        -- apply start_game_roster.
      * rewrite store_lookup_ne by done. exists g. by rewrite Hg.
    + unfold handle_play_card. destruct (games !! c) as [gc|] eqn:Hc; [|done].
      destruct (decide (c = code)) as [->|Hne].
      * assert (gc = g) as -> by congruence. apply Hstore.
        -- by rewrite play_card_started.
        -- apply play_card_roster.
      * rewrite store_lookup_ne by done. exists g. by rewrite Hg.
    + unfold handle_draw. destruct (games !! c) as [gc|] eqn:Hc; [|done].
      destruct (decide (c = code)) as [->|Hne].
      * assert (gc = g) as -> by congruence. apply Hstore.
        -- by rewrite draw_card_started.
        -- apply draw_card_roster.
      * rewrite store_lookup_ne by done. exists g. by rewrite Hg.
    + unfold handle_call_uno. destruct (games !! c) as [gc|] eqn:Hc; [|done].
      destruct (decide (c = code)) as [->|Hne].
      * assert (gc = g) as -> by congruence. apply Hstore.
        -- by rewrite call_uno_started.
        -- apply call_uno_roster.
      * rewrite store_lookup_ne by done. exists g. by rewrite Hg.
    + done.
  - intros pid0 pname0. unfold handle_join_game. by rewrite Hg, Hs.
  - intros pid0 pname0. simpl. apply lookup_insert_eq.
Qed.

(** ** Broadcasting *)




(** ** Codes *)

Lemma choice_chars i :
  (i < 32)%nat →
  ∃ c, choice chars i = Some c
       ∧ c ∈ String.list_ascii_of_string chars
       ∧ c ∉ String.list_ascii_of_string "IO01".
Proof.
  intros Hi.
  do 32 (destruct i as [|i];
         [eexists; split; [reflexivity|];
          split; apply (bool_decide_unpack _); by vm_compute|]).
  lia.
Qed.

(** X19. Whatever [random.choice] draws, a game code has four characters,
    each a capital letter or a digit of the alphabet of the function, which
    leaves out I, O, 0 and 1. *)
Theorem generate_game_code_shape pick :
  (∀ k, (k < 4)%nat → (pick k < 32)%nat) →
  ∃ code, generate_game_code pick = Some code
          ∧ String.length code = 4%nat
          ∧ ∀ c, c ∈ String.list_ascii_of_string code →
                 c ∈ String.list_ascii_of_string chars
                 ∧ c ∉ String.list_ascii_of_string "IO01".
Proof.
  intros Hpick. unfold generate_game_code.
  destruct (choice_chars (pick 0%nat)) as (c0 & H0 & Hc0); [by apply Hpick; lia|].
  destruct (choice_chars (pick 1%nat)) as (c1 & H1 & Hc1); [by apply Hpick; lia|].
  destruct (choice_chars (pick 2%nat)) as (c2 & H2 & Hc2); [by apply Hpick; lia|].
  destruct (choice_chars (pick 3%nat)) as (c3 & H3 & Hc3); [by apply Hpick; lia|].
  cbn [seq mapM]. rewrite H0, H1, H2, H3. simpl.
  eexists. split_and!; [done..|].
  intros c Hc. simpl in Hc.
  repeat (apply elem_of_cons in Hc as [->|Hc]; [done|]).
  by apply elem_of_nil in Hc.
Qed.

(** ** Rounds *)

(** X20. On a roster that is not empty, [k] turn advances in a row keep the
    direction and move the turn [k] steps, modulo the size of the roster;
    from the first advance on the index is an index of the roster, whatever
    it was before.  As many advances as there are players bring the turn
    back to where it was. *)
Theorem advance_turns_spec k ps st :
  ps ≠ [] →
  let n := Z.of_nat (length ps) in
  ∃ st',
    advance_turns k ps st = Some st'
    ∧ direction st' = direction st
    ∧ currentPlayerIndex st' `mod` n
      = (currentPlayerIndex st + Z.of_nat k * direction st) `mod` n
    ∧ ((0 < k)%nat → 0 ≤ currentPlayerIndex st' < n)
    ∧ (k = length ps → 0 ≤ currentPlayerIndex st < n →
       currentPlayerIndex st' = currentPlayerIndex st).
Proof.
  intros Hps n. assert (0 < n) as Hn by (unfold n; destruct ps; [done|simpl; lia]).
  assert (∃ st', advance_turns k ps st = Some st'
            ∧ direction st' = direction st
            ∧ currentPlayerIndex st' `mod` n
              = (currentPlayerIndex st + Z.of_nat k * direction st) `mod` n
            ∧ ((0 < k)%nat → 0 ≤ currentPlayerIndex st' < n))
    as (st' & Hadv & Hdir & Hcpi & Hrange).
  { revert st. induction k as [|k IH]; intros st.
    - exists st. simpl. split_and!; [done..| |lia]. f_equal. lia.
    - cbn [advance_turns].
      destruct (get_next_player_index_Some ps st Hps) as (Hnxt & Hbound & _).
      destruct (advance_turn ps st) as [st1|] eqn:Hadv.
      2:{ unfold advance_turn in Hadv. by rewrite Hnxt in Hadv. }
      apply advance_turn_spec in Hadv as (_ & Hcpi1 & Hdir1). fold n in Hcpi1.
      destruct (IH st1) as (st' & Hadv' & Hdir' & Hcpi' & Hrange').
      exists st'. simpl. split_and!; [done|congruence| |].
      + rewrite Hcpi', Hcpi1, Hdir1, Z.add_mod_idemp_l by lia. f_equal. lia.
      + intros _. destruct k as [|k].
        * simpl in Hadv'. injection Hadv' as <-. rewrite Hcpi1.
          apply Z.mod_pos_bound. lia.
        * apply Hrange'. lia. }
  exists st'. split_and!; [done..|].
  intros -> Hst. fold n in Hcpi.
  rewrite Z.mul_comm, Z_mod_plus_full in Hcpi.
  rewrite (Z.mod_small (currentPlayerIndex st)) in Hcpi by done.
  rewrite Z.mod_small in Hcpi; [done|]. apply Hrange.
  destruct ps; [done|simpl; lia].
Qed.

(** ** Instances on the example matches *)

Lemma card_ids_unique_witness :
  NoDup (card_id <$> all_cards (run started2 plays_to_last_card)).
Proof.
  refine (proj1 (card_ids_unique reverse lobby2 "a" started2
                   plays_to_last_card _ _ _)).
  - exact reverse_is_shuffle.
  - vm_compute. reflexivity.
  - repeat constructor.
Defined.

Lemma served_matches_ok_witness : match_ok lobby2.
Proof.
  apply (served_matches_ok lobby_served "ABCD" lobby2).
  vm_compute. reflexivity.
Defined.

Lemma piles_exhausted_turn_ok : turn_ok piles_exhausted.
Proof.
  apply (run_turn_ok reverse lobby2 "a" started2). vm_compute. reflexivity.
Qed.

Lemma draw_card_raises_iff_witness :
  draw_card reverse piles_exhausted "a" = Raised IndexError piles_exhausted.
Proof.
  destruct (draw_card_raises_iff reverse piles_exhausted
              (state_in piles_exhausted) "a") as (i & p & Hcur & Hdraw).
  - exact reverse_is_shuffle.
  - exact piles_exhausted_turn_ok.
  - vm_compute. reflexivity.
  - assert (p = player_in piles_exhausted 0) as ->.
    { vm_compute in Hcur. injection Hcur as _ <-. vm_compute. reflexivity. }
    destruct (decide _) as [_|Hno]; [exact Hdraw|].
    exfalso. apply Hno. vm_compute. repeat split.
Defined.

Lemma reverse_play_witness :
  ∃ g' st', play_card reverse_in_hand "a" "red-reverse-2" None
            = Done g' [game_update]
            ∧ gameState g' = Some st'
            ∧ direction st' = -1 ∧ currentPlayerIndex st' = 2.
Proof.
  destruct (reverse_play reverse_in_hand (state_in reverse_in_hand) 0
              (player_in reverse_in_hand 0) "red-reverse-2" None
              (mkCard "red" "reverse" "red-reverse-2"))
    as (g' & st' & Hplay & Hst & Hdir & Hcpi & _).
  - vm_compute. reflexivity.
  - vm_compute. reflexivity.
  - vm_compute. reflexivity.
  - vm_compute. lia.
  - reflexivity.
  - exists g', st'. split; [exact Hplay|]. split; [exact Hst|].
    rewrite Hdir, Hcpi. split; vm_compute; reflexivity.
Defined.

Lemma skip_play_witness :
  ∃ g' st', play_card reversed "c" "red-skip-1" None = Done g' [game_update]
            ∧ gameState g' = Some st'
            ∧ direction st' = -1 ∧ currentPlayerIndex st' = 0.
Proof.
  destruct (skip_play reversed (state_in reversed) 2 (player_in reversed 2)
              "red-skip-1" None (mkCard "red" "skip" "red-skip-1"))
    as (g' & st' & Hplay & Hst & Hdir & Hcpi & _).
  - vm_compute. reflexivity.
  - vm_compute. reflexivity.
  - vm_compute. reflexivity.
  - vm_compute. lia.
  - reflexivity.
  - exists g', st'. split; [exact Hplay|]. split; [exact Hst|].
    rewrite Hdir, Hcpi. split; vm_compute; reflexivity.
Defined.

Lemma plain_play_witness :
  ∃ g' st', play_card started2 "a" "red-0-1" None = Done g' [game_update]
            ∧ gameState g' = Some st' ∧ currentPlayerIndex st' = 1
            ∧ players g' !! 1%nat = players started2 !! 1%nat.
Proof.
  destruct (plain_play started2 (state_in started2) 0 (player_in started2 0)
              "red-0-1" None (mkCard "red" "0" "red-0-1"))
    as (h1 & g' & st' & _ & Hplay & Hst & _ & Hcpi & _ & Hothers).
  - vm_compute. reflexivity.
  - vm_compute. reflexivity.
  - vm_compute. reflexivity.
  - vm_compute. lia.
  - discriminate.
  - discriminate.
  - discriminate.
  - exists g', st'. split; [exact Hplay|]. split; [exact Hst|].
    split; [rewrite Hcpi; vm_compute; reflexivity|]. apply Hothers. lia.
Defined.

Lemma play_accepts_any_card_witness :
  ∃ g' st' sent,
    play_card reverse_in_hand "a" "red-0-1" None = Done g' sent
    ∧ gameState g' = Some st' ∧ currentValue st' = "0".
Proof.
  destruct (play_accepts_any_card reverse_in_hand (state_in reverse_in_hand) 0
              (player_in reverse_in_hand 0) "red-0-1" None
              (mkCard "red" "0" "red-0-1"))
    as (h1 & g' & st' & sent & p' & Hplay & Hst & _ & _ & _ & _ & Hval & _).
  - vm_compute. reflexivity.
  - vm_compute. reflexivity.
  - vm_compute. reflexivity.
  - exists g', st', sent. split; [exact Hplay|]. split; [exact Hst|exact Hval].
Defined.

Lemma draws_in_a_row_witness :
  hand_sizes (run started2 (repeat (DrawCard reverse "a") 3)) = [10; 7]%nat.
Proof.
  pose proof (draws_in_a_row reverse started2 (state_in started2) 0
                (player_in started2 0) 3) as Hrun.
  change (player_id (player_in started2 0)) with "a" in Hrun.
  rewrite Hrun.
  - vm_compute. reflexivity.
  - vm_compute. reflexivity.
  - vm_compute. reflexivity.
  - vm_compute. lia.
Defined.

Lemma draw_card_rejected_witness :
  draw_card reverse started2 "b" = Done started2 [].
Proof.
  refine (proj1 (draw_card_rejected reverse started2 0
                   (player_in started2 0) "b" _ _)).
  - vm_compute. reflexivity.
  - vm_compute. discriminate.
Defined.

Lemma start_game_too_many_witness :
  ∃ ps, start_game reverse lobby16 "a"
        = Raised IndexError (mkGame ps false None).
Proof.
  destruct (start_game_too_many reverse lobby16 "a") as (ps & Hstart & _).
  - exact reverse_is_shuffle.
  - vm_compute. reflexivity.
  - vm_compute. lia.
  - exists ps. exact Hstart.
Defined.

Lemma start_game_fifteen_witness :
  ∃ ps, start_game reverse lobby15 "a" = Diverges (mkGame ps false None).
Proof.
  pose proof (start_game_fifteen reverse lobby15 "a" reverse_is_shuffle
                ltac:(vm_compute; reflexivity) ltac:(vm_compute; reflexivity))
    as Hstart.
  destruct (decide _) as [_|Hno].
  - destruct Hstart as (ps & start0 & dk0 & Hstart & _). exists ps. exact Hstart.
  - exfalso. apply Hno. apply (bool_decide_unpack _). vm_compute. exact I.
Defined.

Lemma start_game_forgets_witness :
  start_game reverse last_cards "a" = Done started2 [game_started].
Proof.
  apply (start_game_forgets reverse lobby2 last_cards "a" started2).
  - vm_compute. reflexivity.
  - vm_compute. reflexivity.
Defined.

Lemma served_start_needs_host_witness :
  handle_start_game reverse (serve ∅ lobby_served) "ABCD" "b"
  = Done (serve ∅ lobby_served) [].
Proof.
  apply (served_start_needs_host reverse lobby_served "ABCD" lobby2
           (mkPlayer "a" "Ann" true [] false)
           [mkPlayer "b" "Bob" false [] false] "b").
  - vm_compute. reflexivity.
  - reflexivity.
  - discriminate.
Defined.

Lemma started_match_is_closed_witness :
  handle_join_game {["ABCD" := started2]} "ABCD" "c" "Cy"
  = Done {["ABCD" := started2]} [error "Game started"].
Proof.
  refine (proj1 (proj2 (started_match_is_closed {["ABCD" := started2]} "ABCD"
                          started2 (ReqOther None) _ _)) "c" "Cy").
  - apply lookup_singleton_eq.
  - vm_compute. reflexivity.
Defined.

Lemma generate_game_code_shape_witness :
  ∃ code, generate_game_code (fun k => k) = Some code
          ∧ String.length code = 4%nat.
Proof.
  destruct (generate_game_code_shape (fun k => k)) as (code & Hcode & Hlen & _).
  - intros k Hk. lia.
  - exists code. split; [exact Hcode|exact Hlen].
Defined.

Lemma advance_turns_spec_witness :
  ∃ st', advance_turns 3 (players started3) (state_in started3) = Some st'
         ∧ currentPlayerIndex st' = currentPlayerIndex (state_in started3).
Proof.
  destruct (advance_turns_spec 3 (players started3) (state_in started3))
    as (st' & Hadv & _ & _ & _ & Hback).
  - vm_compute. discriminate.
  - exists st'. split; [exact Hadv|].
    refine (Hback _ _).
    + vm_compute. reflexivity.
    + change (0 ≤ 0 < 3). lia.
Defined.
